(** * Shallow embedding of the Solana wallet token tracker

    The development follows the two Go packages that make up the
    reconciliation engine:

    - [pkg/solana] (client.go): the record [TokenAccountInfo], the snapshot
      fetch [GetTokenAccounts], the decoding of a websocket notification
      [parseTokenAccountFromSubscription] and the per-wallet subscription
      [SubscribeToTokenAccountUpdates];
    - [pkg/monitor]: the [Monitor] with its state map, the filter
      [shouldTrackToken], the update path [processAccountUpdate], the
      bootstrap [updateInitialState], [Start], the poll tick and
      [GetCurrentState].

    Go maps are reference objects, so the maps live in a heap indexed by
    locations and a [Monitor] holds the location of its state map.  Every
    function of the program that touches the heap, the logger, the clock or
    the network is a computation in the monad [M] over a [World]. *)

From Stdlib Require Import Ascii.
From stdpp Require Import gmap strings list fin_maps.

(** ** Go scalars *)

(** Conversions to [uint64] and [uint8] keep the low bits. *)
Definition uint64 (z : Z) : Z := (z mod 2 ^ 64)%Z.
Definition uint8 (z : Z) : Z := (z mod 2 ^ 8)%Z.

(** ** pkg/solana: data *)

(** [TokenAccountInfo] (client.go, lines 24-32).  [Balance] is a [uint64],
    [Decimals] a [uint8], [LastUpdatedAt] an instant of the wall clock. *)
Record TokenAccountInfo := mkTokenAccountInfo {
  Address : string;
  Owner : string;
  Mint : string;
  Balance : Z;
  Decimals : Z;
  ProgramID : string;
  LastUpdatedAt : Z
}.

(** The zero value of the struct, which a map read yields for a missing key. *)
Definition zeroTokenAccountInfo : TokenAccountInfo :=
  {| Address := ""; Owner := ""; Mint := ""; Balance := 0; Decimals := 0;
     ProgramID := ""; LastUpdatedAt := 0 |}.

(** The errors the client builds with [fmt.Errorf] or passes on. *)
Inductive error :=
| ErrInvalidWalletAddress
| ErrGetTokenAccounts
| ErrSubscribe
| ErrJSON
| ErrInvalidTokenAmount (amount : string).

(** A Go result pair [(T, error)]. *)
Inductive result (A : Type) :=
| Ok (a : A)
| Err (e : error).
Arguments Ok {A} a.
Arguments Err {A} e.

(** What the type assertion on [GetJSONParsed()] exposes of an item:
    [Data.Program] and, under [Data.Parsed.Info], [Mint],
    [TokenAmount.Amount] and [TokenAmount.Decimals]. *)
Record ParsedTokenAccount := mkParsedTokenAccount {
  pta_Program : string;
  pta_Mint : string;
  pta_Amount : Z;
  pta_Decimals : Z
}.

(** One element of [res.Value]: the account's public key (printed) and its
    parsed data, [None] when the type assertion fails. *)
Record KeyedAccount := mkKeyedAccount {
  item_Pubkey : string;
  item_Parsed : option ParsedTokenAccount
}.

(** [notification.Result.Value]: the public key (printed) and the account,
    of which the client reads [Owner] and marshals the whole. *)
Record RpcAccount := mkRpcAccount {
  acc_Lamports : Z;
  acc_Owner : string;
  acc_Data : string;
  acc_Executable : bool;
  acc_RentEpoch : Z
}.

Record ProgramNotification := mkProgramNotification {
  Value_Pubkey : string;
  Value_Account : RpcAccount
}.

(** The anonymous struct [tokenAccount] that the notification is
    unmarshalled into (client.go, lines 163-178), flattened: [Owner],
    [Data.Parsed.Type], and under [Data.Parsed.Info] the fields [Mint],
    [Owner], [TokenAmount.Amount], [TokenAmount.Decimals]. *)
Record tokenAccount := mkTokenAccount {
  ta_Owner : string;
  ta_Type : string;
  ta_Info_Mint : string;
  ta_Info_Owner : string;
  ta_Info_Amount : string;
  ta_Info_Decimals : Z
}.

(** [solana.TokenProgramID.String()]. *)
Definition TokenProgramID : string :=
  "TokenkegQfeZyiNwAJbNbGKPFXCWuBvf9Ss623VQ5DA".

(** ** The collaborators outside the repository

    The libraries and the remote node the client talks to.  The node, the
    clock and the websocket are stateful: their answers are indexed by the
    number of calls made so far, so that any behaviour of theirs is one
    instance of this class. *)
Class Externals := {
  (** [solana.PublicKeyFromBase58]: does the address decode ([err == nil])? *)
  PublicKeyFromBase58 : string → bool;
  (** [RPCClient.GetTokenAccountsByOwner]: the answer to the n-th request,
      [None] for an error. *)
  rpcGetTokenAccountsByOwner : nat → string → option (list KeyedAccount);
  (** [time.Now()] at the n-th reading of the clock. *)
  timeNow : nat → Z;
  (** [WSClient.ProgramSubscribe]: does the n-th subscription succeed? *)
  wsProgramSubscribe : nat → bool;
  (** [json.Marshal] of an account and [json.Unmarshal] into [tokenAccount]. *)
  jsonMarshal : RpcAccount → option string;
  jsonUnmarshal : string → option tokenAccount;
  (** [new(solana.U64).SetString]: the parsed amount, [None] when [!ok]. *)
  U64SetString : string → option Z
}.

(** ** pkg/monitor: data *)

(** A registered handler is an opaque callback; the model keeps its identity. *)
Definition BalanceChangeHandler := nat.

(** Locations of Go maps. *)
Definition loc := nat.

(** [Monitor] (lines 16-25).  [state] is the reference to the map and
    [client] is the [Externals] instance.  [stateMutex] serialises the
    critical sections; the executions of the model interleave whole calls,
    so a call's notification directly follows its critical section.  [ctx]
    and [cancel] only stop the background tasks. *)
Record Monitor := mkMonitor {
  wallets : list string;
  tokens : list string;
  handlers : list BalanceChangeHandler;
  state : loc
}.

(** ** Observable effects *)

Inductive Event :=
| LogWarnParseData (pubkey : string)
| LogWarnParseUpdate (err : error)
| LogErrorSubscribe (walletAddress : string) (err : error)
| LogErrorPoll (wallet : string) (err : error)
| LogInfoBalanceChanged (wallet mint : string) (balance : Z)
| GoHandler (handler : BalanceChangeHandler) (account : TokenAccountInfo)
| GoSubscribe (walletAddress : string)
| GoPolling.

(** ** The world and the monad *)

Record World := mkWorld {
  (** the Go maps that exist *)
  heap : gmap loc (gmap string TokenAccountInfo);
  (** calls made so far to the node, the clock and the websocket *)
  rpcCalls : nat;
  clockReads : nat;
  wsCalls : nat;
  (** wallets whose program subscription is open *)
  subscriptions : list string;
  (** log lines and goroutines started, oldest first *)
  out : list Event
}.

(** A computation either returns a value and a new world or panics ([None]):
    the one panic of this program is an assignment into a nil map. *)
Definition M (A : Type) : Type := World → option (A * World).

Definition ret {A} (a : A) : M A := λ w, Some (a, w).

Definition bind {A B} (c : M A) (k : A → M B) : M B :=
  λ w, match c w with
       | Some (a, w') => k a w'
       | None => None
       end.

Notation "x <- c1 ;; c2" := (bind c1 (λ x, c2))
  (at level 100, c1 at next level, right associativity).
Notation "c1 ;; c2" := (bind c1 (λ _, c2))
  (at level 100, right associativity).

(** Updates of one component of the world. *)
Definition setHeap (h : gmap loc (gmap string TokenAccountInfo)) (w : World) : World :=
  mkWorld h (rpcCalls w) (clockReads w) (wsCalls w) (subscriptions w) (out w).

Definition addOut (events : list Event) (w : World) : World :=
  mkWorld (heap w) (rpcCalls w) (clockReads w) (wsCalls w) (subscriptions w)
          (out w ++ events).

(** A log line is written, or a goroutine is started. *)
Definition emit (e : Event) : M unit := λ w, Some (tt, addOut [e] w).

(** [make(map[string]TokenAccountInfo)]: a new, empty map. *)
Definition mapMake : M loc :=
  λ w, let l := fresh (dom (heap w)) in Some (l, setHeap (<[l := ∅]> (heap w)) w).

(** The entries of a map; a nil map reads as empty. *)
Definition mapRead (l : loc) : M (gmap string TokenAccountInfo) :=
  λ w, Some (default ∅ (heap w !! l), w).

(** [v, ok := m[k]]. *)
Definition mapIndex (l : loc) (k : string) : M (TokenAccountInfo * bool) :=
  entries <- mapRead l ;;
  ret (match entries !! k with
       | Some v => (v, true)
       | None => (zeroTokenAccountInfo, false)
       end).

(** [m[k] = v]; panics on a nil map. *)
Definition mapAssign (l : loc) (k : string) (v : TokenAccountInfo) : M unit :=
  λ w, match heap w !! l with
       | Some entries => Some (tt, setHeap (<[l := <[k := v]> entries]> (heap w)) w)
       | None => None
       end.

(** [delete(m, k)]; a no-op on a nil map. *)
Definition mapDelete (l : loc) (k : string) : M unit :=
  λ w, match heap w !! l with
       | Some entries => Some (tt, setHeap (<[l := delete k entries]> (heap w)) w)
       | None => Some (tt, w)
       end.

Section Program.
Context `{ext : Externals}.

(** [time.Now()]. *)
Definition now : M Z :=
  λ w, Some (timeNow (clockReads w),
             mkWorld (heap w) (rpcCalls w) (S (clockReads w)) (wsCalls w)
                     (subscriptions w) (out w)).

(** One request [GetTokenAccountsByOwner] to the node. *)
Definition rpcRequest (walletAddress : string) : M (option (list KeyedAccount)) :=
  λ w, Some (rpcGetTokenAccountsByOwner (rpcCalls w) walletAddress,
             mkWorld (heap w) (S (rpcCalls w)) (clockReads w) (wsCalls w)
                     (subscriptions w) (out w)).

(** One call of [ProgramSubscribe]; when it succeeds the subscription of
    the wallet is open and its callback will be run on every notification. *)
Definition wsSubscribe (walletAddress : string) : M bool :=
  λ w, let ok := wsProgramSubscribe (wsCalls w) in
       Some (ok, mkWorld (heap w) (rpcCalls w) (clockReads w) (S (wsCalls w))
                         (if ok then subscriptions w ++ [walletAddress]
                          else subscriptions w)
                         (out w)).

(** ** pkg/solana: operations *)

(** The loop of [GetTokenAccounts] over [res.Value] (lines 82-105). *)
Fixpoint tokenInfos (walletAddress : string) (items : list KeyedAccount)
    (accounts : list TokenAccountInfo) : M (list TokenAccountInfo) :=
  match items with
  | [] => ret accounts
  | item :: rest =>
      match item_Parsed item with
      | None =>
          emit (LogWarnParseData (item_Pubkey item)) ;;
          tokenInfos walletAddress rest accounts
      | Some info =>
          t <- now ;;
          let tokenInfo :=
            {| Address := item_Pubkey item;
               Owner := walletAddress;
               Mint := pta_Mint info;
               Balance := uint64 (pta_Amount info);
               Decimals := uint8 (pta_Decimals info);
               ProgramID := pta_Program info;
               LastUpdatedAt := t |} in
          tokenInfos walletAddress rest (accounts ++ [tokenInfo])
      end
  end.

(** [GetTokenAccounts] (lines 60-108). *)
Definition GetTokenAccounts (walletAddress : string)
    : M (result (list TokenAccountInfo)) :=
  if negb (PublicKeyFromBase58 walletAddress) then ret (Err ErrInvalidWalletAddress)
  else
    res <- rpcRequest walletAddress ;;
    match res with
    | None => ret (Err ErrGetTokenAccounts)
    | Some items =>
        accounts <- tokenInfos walletAddress items [] ;;
        ret (Ok accounts)
    end.

(** [parseTokenAccountFromSubscription] (lines 153-209).  [Ok None] is the
    pair [(nil, nil)]. *)
Definition parseTokenAccountFromSubscription (notification : ProgramNotification)
    (walletAddress : string) : M (result (option TokenAccountInfo)) :=
  if negb (String.eqb (acc_Owner (Value_Account notification)) TokenProgramID)
  then ret (Ok None)
  else
    match jsonMarshal (Value_Account notification) with
    | None => ret (Err ErrJSON)
    | Some accountData =>
        match jsonUnmarshal accountData with
        | None => ret (Err ErrJSON)
        | Some tokenAccount =>
            if negb (String.eqb (ta_Info_Owner tokenAccount) walletAddress)
            then ret (Ok None)
            else
              match U64SetString (ta_Info_Amount tokenAccount) with
              | None => ret (Err (ErrInvalidTokenAmount (ta_Info_Amount tokenAccount)))
              | Some amount =>
                  t <- now ;;
                  ret (Ok (Some
                    {| Address := Value_Pubkey notification;
                       Owner := walletAddress;
                       Mint := ta_Info_Mint tokenAccount;
                       Balance := uint64 amount;
                       Decimals := ta_Info_Decimals tokenAccount;
                       ProgramID := "";
                       LastUpdatedAt := t |}))
              end
        end
    end.

(** The closure handed to [ProgramSubscribe] (lines 127-142): what one
    delivered notification does in the subscription of [walletAddress]. *)
Definition programCallback (walletAddress : string)
    (callback : TokenAccountInfo → M unit) (res : ProgramNotification) : M unit :=
  r <- parseTokenAccountFromSubscription res walletAddress ;;
  match r with
  | Err err => emit (LogWarnParseUpdate err)
  | Ok None => ret tt
  | Ok (Some accountInfo) => callback accountInfo
  end.

(** [SubscribeToTokenAccountUpdates] (lines 111-150), the part that runs
    when the subscription is made; [programCallback] is its closure. *)
Definition SubscribeToTokenAccountUpdates (walletAddress : string) : M (option error) :=
  if negb (PublicKeyFromBase58 walletAddress) then ret (Some ErrInvalidWalletAddress)
  else
    ok <- wsSubscribe walletAddress ;;
    if ok then ret None else ret (Some ErrSubscribe).

(** ** pkg/monitor: operations *)

(** [NewMonitor] (lines 28-39). *)
Definition NewMonitor (wallets tokens : list string) : M Monitor :=
  l <- mapMake ;;
  ret {| wallets := wallets; tokens := tokens; handlers := []; state := l |}.

(** [RegisterHandler] (lines 42-44). *)
Definition RegisterHandler (m : Monitor) (handler : BalanceChangeHandler) : Monitor :=
  {| wallets := wallets m; tokens := tokens m;
     handlers := handlers m ++ [handler]; state := state m |}.

(** The loop of [shouldTrackToken] over [m.tokens] (lines 192-196). *)
Fixpoint tokenListed (tokens : list string) (mint : string) : bool :=
  match tokens with
  | [] => false
  | token :: rest => if String.eqb token mint then true else tokenListed rest mint
  end.

(** [shouldTrackToken] (lines 185-199). *)
Definition shouldTrackToken (m : Monitor) (mint : string) : bool :=
  if Nat.eqb (length (tokens m)) 0 then true
  else tokenListed (tokens m) mint.

(** The key of a pair (owner, mint) in the state map, and of an account
    (line 157). *)
Definition pairKey (owner mint : string) : string := owner +:+ ":" +:+ mint.

Definition stateKey (account : TokenAccountInfo) : string :=
  pairKey (Owner account) (Mint account).

(** The loop over [m.handlers] (lines 178-180). *)
Fixpoint notifyHandlers (hs : list BalanceChangeHandler)
    (account : TokenAccountInfo) : M unit :=
  match hs with
  | [] => ret tt
  | handler :: rest => emit (GoHandler handler account) ;; notifyHandlers rest account
  end.

(** [processAccountUpdate] (lines 152-182).  The lines between [Lock] and
    [Unlock] are the first three steps; the notification follows them. *)
Definition processAccountUpdate (m : Monitor) (account : TokenAccountInfo) : M unit :=
  let key := stateKey account in
  found <- mapIndex (state m) key ;;
  let '(oldAccount, exists_) := found in
  let balanceChanged :=
    negb exists_ || negb (Z.eqb (Balance oldAccount) (Balance account)) in
  mapAssign (state m) key account ;;
  if balanceChanged then
    emit (LogInfoBalanceChanged (Owner account) (Mint account) (Balance account)) ;;
    notifyHandlers (handlers m) account
  else ret tt.

(** The loop over the accounts of one wallet, the same in
    [updateInitialState] (lines 96-100) and in the poll (lines 139-143). *)
Fixpoint trackAccounts (m : Monitor) (accounts : list TokenAccountInfo) : M unit :=
  match accounts with
  | [] => ret tt
  | account :: rest =>
      (if shouldTrackToken m (Mint account) then processAccountUpdate m account
       else ret tt) ;;
      trackAccounts m rest
  end.

(** The loop of [updateInitialState] over the wallets (lines 89-101). *)
Fixpoint updateInitialStateFrom (m : Monitor) (ws : list string) : M (option error) :=
  match ws with
  | [] => ret None
  | wallet :: rest =>
      r <- GetTokenAccounts wallet ;;
      match r with
      | Err err => ret (Some err)
      | Ok accounts =>
          trackAccounts m accounts ;;
          updateInitialStateFrom m rest
      end
  end.

(** [updateInitialState] (lines 88-104). *)
Definition updateInitialState (m : Monitor) : M (option error) :=
  updateInitialStateFrom m (wallets m).

(** The loop of [Start] that starts one subscription task per wallet
    (lines 54-60). *)
Fixpoint goSubscribeAll (ws : list string) : M unit :=
  match ws with
  | [] => ret tt
  | wallet :: rest => emit (GoSubscribe wallet) ;; goSubscribeAll rest
  end.

(** [Start] (lines 47-66). *)
Definition Start (m : Monitor) : M (option error) :=
  r <- updateInitialState m ;;
  match r with
  | Some err => ret (Some err)
  | None =>
      goSubscribeAll (wallets m) ;;
      emit GoPolling ;;
      ret None
  end.

(** The callback of the monitor (lines 111-119). *)
Definition walletCallback (m : Monitor) (account : TokenAccountInfo) : M unit :=
  if negb (shouldTrackToken m (Mint account)) then ret tt
  else processAccountUpdate m account.

(** [subscribeToWalletUpdates] (lines 107-121), when the subscription is
    made. *)
Definition subscribeToWalletUpdates (m : Monitor) (walletAddress : string)
    : M (option error) :=
  SubscribeToTokenAccountUpdates walletAddress.

(** The body of a subscription task (lines 55-59). *)
Definition subscriptionTask (m : Monitor) (walletAddress : string) : M unit :=
  r <- subscribeToWalletUpdates m walletAddress ;;
  match r with
  | Some err => emit (LogErrorSubscribe walletAddress err)
  | None => ret tt
  end.

(** One notification delivered to the subscription of [walletAddress]. *)
Definition deliver (m : Monitor) (walletAddress : string)
    (res : ProgramNotification) : M unit :=
  programCallback walletAddress (walletCallback m) res.

(** The loop of one poll tick over the wallets (lines 132-144). *)
Fixpoint pollWallets (m : Monitor) (ws : list string) : M unit :=
  match ws with
  | [] => ret tt
  | wallet :: rest =>
      r <- GetTokenAccounts wallet ;;
      match r with
      | Err err => emit (LogErrorPoll wallet err) ;; pollWallets m rest
      | Ok accounts => trackAccounts m accounts ;; pollWallets m rest
      end
  end.

(** One tick of [startPeriodicPolling] (the case [<-ticker.C], lines 130-144). *)
Definition pollTick (m : Monitor) : M unit := pollWallets m (wallets m).

(** The copying loop of [GetCurrentState] (lines 80-82). *)
Fixpoint copyEntries (stateCopy : loc) (entries : list (string * TokenAccountInfo))
    : M unit :=
  match entries with
  | [] => ret tt
  | (k, v) :: rest => mapAssign stateCopy k v ;; copyEntries stateCopy rest
  end.

(** [GetCurrentState] (lines 74-85); it returns the reference to the copy. *)
Definition GetCurrentState (m : Monitor) : M loc :=
  stateCopy <- mapMake ;;
  entries <- mapRead (state m) ;;
  copyEntries stateCopy (map_to_list entries) ;;
  ret stateCopy.

End Program.

(** ** Vocabulary of the statements *)

(** The entries of the state map of a monitor, [None] while it is nil. *)
Definition store (m : Monitor) (w : World) : option (gmap string TokenAccountInfo) :=
  heap w !! state m.

(** A mint passes the filter: the list is empty or holds it. *)
Definition tracked (m : Monitor) (mint : string) : Prop :=
  tokens m = [] ∨ mint ∈ tokens m.

(** What [processAccountUpdate] sends out when it declares a change
    (lines 170-180): the log line, then one goroutine per handler. *)
Definition dispatch (m : Monitor) (account : TokenAccountInfo) : list Event :=
  LogInfoBalanceChanged (Owner account) (Mint account) (Balance account)
  :: map (λ handler, GoHandler handler account) (handlers m).

(** The test of line 161 on the entries of the state map. *)
Definition balanceDiffers (st : gmap string TokenAccountInfo)
    (account : TokenAccountInfo) : bool :=
  match st !! stateKey account with
  | Some oldAccount => negb (Z.eqb (Balance oldAccount) (Balance account))
  | None => true
  end.

(** The two JSON steps of [parseTokenAccountFromSubscription]
    (lines 181-188): the decoded account, [None] when either fails. *)
Definition decodeAccount `{ext : Externals} (account : RpcAccount) : option tokenAccount :=
  match jsonMarshal account with
  | Some accountData => jsonUnmarshal accountData
  | None => None
  end.

(** A world [w'] that the ingestion of records into the state map of [m]
    can make of [w]: only that map changed, its keys were kept, every record
    it holds was there before or has a tracked mint, and the trace grew. *)
Definition ingests (m : Monitor) (w w' : World) : Prop :=
  ∃ st st' events,
    store m w = Some st ∧
    heap w' = <[state m := st']> (heap w) ∧
    out w' = out w ++ events ∧
    dom st ⊆ dom st' ∧
    ∀ k account, st' !! k = Some account →
      st !! k = Some account ∨ tracked m (Mint account).

(** A world that differs from [w] by calls to the collaborators and by
    events only. *)
Definition quiet (w w' : World) : Prop :=
  heap w' = heap w ∧ ∃ events, out w' = out w ++ events.

(** Callers hold no reference to the state map, which exists and holds
    records of tracked mints only. *)
Definition wellFiltered (m : Monitor) (c : World * gset loc) : Prop :=
  (state m ∉ c.2) ∧
  ∃ st, store m c.1 = Some st ∧
        ∀ k account, st !! k = Some account → tracked m (Mint account).

(** The state key a notification event is about. *)
Definition eventKey (e : Event) : option string :=
  match e with
  | LogInfoBalanceChanged wallet mint _ => Some (pairKey wallet mint)
  | GoHandler _ account => Some (stateKey account)
  | _ => None
  end.

(** The events of a trace that notify a change of key [k]. *)
Definition about (k : string) (events : list Event) : list Event :=
  filter (λ e, eventKey e = Some k) events.

(** A sequence of updates applied in order through [processAccountUpdate]. *)
Fixpoint processAll (m : Monitor) (updates : list TokenAccountInfo) : M unit :=
  match updates with
  | [] => ret tt
  | account :: rest => processAccountUpdate m account ;; processAll m rest
  end.

(** The events that the updates [updates], all to one key, send out when
    the record under that key is [prev] before the first of them. *)
Fixpoint changesFor (m : Monitor) (prev : option TokenAccountInfo)
    (updates : list TokenAccountInfo) : list Event :=
  match updates with
  | [] => []
  | account :: rest =>
      (if match prev with
          | Some oldAccount => negb (Z.eqb (Balance oldAccount) (Balance account))
          | None => true
          end
       then dispatch m account else [])
      ++ changesFor m (Some account) rest
  end.

(** Does a wallet identifier contain the separator of the state key? *)
Fixpoint containsColon (s : string) : bool :=
  match s with
  | EmptyString => false
  | String c rest => if Ascii.eqb c ":"%char then true else containsColon rest
  end.

(** ** Executions

    The activities of a started monitor: [Start] itself, a subscription
    task making its subscription, a notification delivered to an open
    subscription, a tick of the poll. *)
Inductive monitorStep `{ext : Externals} (m : Monitor) : World → World → Prop :=
| step_start w r w' :
    Start m w = Some (r, w') →
    monitorStep m w w'
| step_subscribe w walletAddress w' :
    GoSubscribe walletAddress ∈ out w →
    subscriptionTask m walletAddress w = Some (tt, w') →
    monitorStep m w w'
| step_deliver w walletAddress res w' :
    walletAddress ∈ subscriptions w →
    deliver m walletAddress res w = Some (tt, w') →
    monitorStep m w w'
| step_poll w w' :
    GoPolling ∈ out w →
    pollTick m w = Some (tt, w') →
    monitorStep m w w'.

(** A configuration is the world together with the maps the callers of the
    monitor hold: those that existed before the monitor, those they make and
    the copies [GetCurrentState] returned to them.  A step is an activity of
    the monitor, a call of [GetCurrentState], or a caller making a map or
    writing to one it holds. *)
Inductive step `{ext : Externals} (m : Monitor)
  : World * gset loc → World * gset loc → Prop :=
| step_monitor w held w' :
    monitorStep m w w' →
    step m (w, held) (w', held)
| step_read w held l w' :
    GetCurrentState m w = Some (l, w') →
    step m (w, held) (w', {[l]} ∪ held)
| step_caller_make w held l w' :
    mapMake w = Some (l, w') →
    step m (w, held) (w', {[l]} ∪ held)
| step_caller_assign w held l k v w' :
    l ∈ held →
    mapAssign l k v w = Some (tt, w') →
    step m (w, held) (w', held)
| step_caller_delete w held l k w' :
    l ∈ held →
    mapDelete l k w = Some (tt, w') →
    step m (w, held) (w', held).

(** The configurations of a monitor built by [NewMonitor], with handlers
    registered before it is started. *)
Inductive reachable `{ext : Externals} (m : Monitor) : World * gset loc → Prop :=
| reachable_new ws ts w0 m0 w1 hs :
    NewMonitor ws ts w0 = Some (m0, w1) →
    m = foldl RegisterHandler m0 hs →
    reachable m (w1, dom (heap w0))
| reachable_step c c' :
    reachable m c → step m c c' → reachable m c'.

(** A node for the examples: the wallet [W1] cannot be fetched, every other
    wallet holds one account of mint [M1] with balance 100; an address is
    accepted unless it is [bad]; notifications carry their payload as is. *)
Definition exampleNode : Externals := {|
  PublicKeyFromBase58 := λ s, negb (String.eqb s "bad");
  rpcGetTokenAccountsByOwner := λ _ wallet,
    if String.eqb wallet "W1" then None
    else Some [mkKeyedAccount "acc1" (Some (mkParsedTokenAccount "spl" "M1" 100 6))];
  timeNow := λ n, Z.of_nat n;
  wsProgramSubscribe := λ _, true;
  jsonMarshal := λ account, Some (acc_Data account);
  jsonUnmarshal := λ data,
    if String.eqb data "" then None
    else Some (mkTokenAccount "" "account" "M1" data "150" 6);
  U64SetString := λ s, if String.eqb s "150" then Some 150%Z else None
|}.

(** A node for the scenario of the specification: the first request
    reports balance 100 for the account of mint [M1], every later one 150;
    a notification decodes to an account of mint [M1] and amount 150 whose
    owner is the payload. *)
Definition scenarioNode : Externals := {|
  PublicKeyFromBase58 := λ _, true;
  rpcGetTokenAccountsByOwner := λ n _,
    Some [mkKeyedAccount "acc1"
            (Some (mkParsedTokenAccount "spl" "M1" (if Nat.eqb n 0 then 100 else 150) 6))];
  timeNow := λ n, Z.of_nat n;
  wsProgramSubscribe := λ _, true;
  jsonMarshal := λ account, Some (acc_Data account);
  jsonUnmarshal := λ data, Some (mkTokenAccount "" "account" "M1" data "150" 6);
  U64SetString := λ s, if String.eqb s "150" then Some 150%Z else None
|}.

(** The scenario: a monitor of wallet [A] with one handler is started, its
    subscription is made, the poll ticks once, a notification arrives, and
    the state is read. *)
Definition scenario : M loc :=
  m0 <- NewMonitor ["A"] [] ;;
  let m := RegisterHandler m0 7 in
  _ <- @Start scenarioNode m ;;
  @subscriptionTask scenarioNode m "A" ;;
  @pollTick scenarioNode m ;;
  @deliver scenarioNode m "A"
    (mkProgramNotification "acc1" (mkRpcAccount 0 TokenProgramID "A" false 0)) ;;
  GetCurrentState m.

(** A world before anything ran, and one in which the map 0 exists and
    holds [entries]. *)
Definition emptyWorld : World := mkWorld ∅ 0 0 0 [] [].

Definition worldWith (entries : gmap string TokenAccountInfo) : World :=
  setHeap {[0 := entries]} emptyWorld.

(** A monitor over the map 0, and an account of wallet [W2]. *)
Definition exampleMonitor (ws ts : list string) : Monitor :=
  {| wallets := ws; tokens := ts; handlers := [7]; state := 0 |}.

Definition exampleAccount (mint : string) (balance : Z) : TokenAccountInfo :=
  {| Address := "acc1"; Owner := "W2"; Mint := mint; Balance := balance;
     Decimals := 6; ProgramID := "spl"; LastUpdatedAt := 0 |}.

(** ** Vocabulary of the further properties *)

(** The accounts of a fetched list that the filter lets through. *)
Definition trackedAccounts (m : Monitor) (accounts : list TokenAccountInfo)
    : list TokenAccountInfo :=
  filter (λ account, shouldTrackToken m (Mint account) = true) accounts.

(** The items of an answer of the node that carry parsed token data, with
    their public keys, and the public keys of those that do not. *)
Definition parsedItems (items : list KeyedAccount) : list (string * ParsedTokenAccount) :=
  omap (λ item, pair (item_Pubkey item) <$> item_Parsed item) items.

Definition unparsedItems (items : list KeyedAccount) : list string :=
  omap (λ item, match item_Parsed item with
                | Some _ => None
                | None => Some (item_Pubkey item)
                end) items.

(** The world after [n] readings of the clock and one request to the node. *)
Definition afterFetch (n : nat) (w : World) : World :=
  mkWorld (heap w) (S (rpcCalls w)) (n + clockReads w) (wsCalls w)
          (subscriptions w) (out w).

(** A watched wallet whose address decodes. *)
Definition watched `{ext : Externals} (m : Monitor) (owner : string) : Prop :=
  owner ∈ wallets m ∧ PublicKeyFromBase58 owner = true.

(** The warnings and errors that the ingestion paths log. *)
Definition isNote (e : Event) : Prop :=
  match e with
  | LogWarnParseData _ | LogWarnParseUpdate _
  | LogErrorSubscribe _ _ | LogErrorPoll _ _ => True
  | _ => False
  end.

(** The traces that ingestion writes: warnings and errors, and whole
    dispatches for accounts of tracked mints owned by watched wallets. *)
Inductive ingestTrace `{ext : Externals} (m : Monitor) : list Event → Prop :=
| ingestTrace_nil :
    ingestTrace m []
| ingestTrace_note e events :
    isNote e → ingestTrace m events → ingestTrace m (e :: events)
| ingestTrace_dispatch account events :
    tracked m (Mint account) → watched m (Owner account) →
    ingestTrace m events →
    ingestTrace m (dispatch m account ++ events).

(** The traces of a monitor: those of ingestion, and the background tasks
    [Start] launches, a subscription task being for a configured wallet. *)
Inductive monitorTrace `{ext : Externals} (m : Monitor) : list Event → Prop :=
| monitorTrace_nil :
    monitorTrace m []
| monitorTrace_ingest events events' :
    ingestTrace m events → monitorTrace m events' →
    monitorTrace m (events ++ events')
| monitorTrace_subscribe walletAddress events :
    walletAddress ∈ wallets m → monitorTrace m events →
    monitorTrace m (GoSubscribe walletAddress :: events)
| monitorTrace_polling events :
    monitorTrace m events → monitorTrace m (GoPolling :: events).

(** A world that ingestion of accounts of watched wallets makes of [w]:
    as [ingests], and every record that is new sits under its own key, has
    a tracked mint and a watched owner; the subscriptions are as they were
    and what was written is a trace of ingestion. *)
Definition ingestsWatched `{ext : Externals} (m : Monitor) (w w' : World) : Prop :=
  ∃ st st' events,
    store m w = Some st ∧
    heap w' = <[state m := st']> (heap w) ∧
    subscriptions w' = subscriptions w ∧
    out w' = out w ++ events ∧
    ingestTrace m events ∧
    dom st ⊆ dom st' ∧
    ∀ k account, st' !! k = Some account →
      st !! k = Some account ∨
      (k = stateKey account ∧ tracked m (Mint account) ∧ watched m (Owner account)).



(** The configurations of a monitor built by [NewMonitor] in a world where
    no subscription is open and nothing has been written yet. *)
Inductive monitored `{ext : Externals} (m : Monitor) : World * gset loc → Prop :=
| monitored_new ws ts w0 m0 w1 hs :
    subscriptions w0 = [] →
    out w0 = [] →
    NewMonitor ws ts w0 = Some (m0, w1) →
    m = foldl RegisterHandler m0 hs →
    monitored m (w1, dom (heap w0))
| monitored_step c c' :
    monitored m c → step m c c' → monitored m c'.

(** What holds of every such configuration: callers do not hold the state
    map; every record in it sits under its own key, has a tracked mint and
    a watched owner; the trace is one of the monitor; the open subscriptions
    are for watched wallets. *)
Definition wellKept `{ext : Externals} (m : Monitor) (c : World * gset loc) : Prop :=
  (state m ∉ c.2) ∧
  (∃ st, store m c.1 = Some st ∧
         ∀ k account, st !! k = Some account →
           k = stateKey account ∧ tracked m (Mint account) ∧
           watched m (Owner account)) ∧
  monitorTrace m (out c.1) ∧
  ∀ walletAddress, walletAddress ∈ subscriptions c.1 → watched m walletAddress.

(** A node like [exampleNode] whose decoder of addresses refuses the
    separator [:], as the base58 alphabet does. *)
Definition strictNode : Externals := {|
  PublicKeyFromBase58 := λ s, negb (containsColon s);
  rpcGetTokenAccountsByOwner := λ _ wallet,
    Some [mkKeyedAccount "acc1" (Some (mkParsedTokenAccount "spl" "M1" 100 6))];
  timeNow := λ n, Z.of_nat n;
  wsProgramSubscribe := λ _, true;
  jsonMarshal := λ account, Some (acc_Data account);
  jsonUnmarshal := λ data, Some (mkTokenAccount "" "account" "M1" data "150" 6);
  U64SetString := λ s, if String.eqb s "150" then Some 150%Z else None
|}.

(** A monitor of wallet [W2] and mint [M1] with one handler, and the world
    that [Start] makes of [worldWith ∅] on [strictNode]. *)
Definition startedMonitor : Monitor :=
  foldl RegisterHandler (mkMonitor ["W2"] ["M1"] [] 0) [7].

Definition startedWorld : World :=
  mkWorld {[0 := {[ pairKey "W2" "M1" := exampleAccount "M1" 100 ]}]} 1 1 0 []
    [ LogInfoBalanceChanged "W2" "M1" 100;
      GoHandler 7 (exampleAccount "M1" 100);
      GoSubscribe "W2";
      GoPolling ].

(** ** pkg/config *)

(** [Config] (config.go, lines 15-21). *)
Record Config := mkConfig {
  RPCEndpoint : string;
  WSEndpoint : string;
  Wallets : list string;
  Tokens : list string;
  LogLevel : string
}.

(** A level of the logger; [logrus.InfoLevel] is 4. *)
Definition Level := nat.
Definition InfoLevel : Level := 4.

(** What [LoadConfig] reads: the environment as [os.Getenv] sees it once
    [godotenv.Load] ran (an unset variable reads as empty), whether
    [os.Stat] finds the file [config.json], what [ioutil.ReadFile] returns
    for it ([None] for an error), and the libraries: [json.Unmarshal] of
    the data into a configuration that holds the defaults, and
    [logrus.ParseLevel]. *)
Record ConfigEnv := mkConfigEnv {
  Getenv : string → string;
  statConfigFile : bool;
  readConfigFile : option string;
  jsonUnmarshalConfig : string → Config → option Config;
  ParseLevel : string → option Level
}.

Inductive configError :=
| ErrReadConfigFile
| ErrParseConfigFile.

(** The result of [LoadConfig]: the configuration, with the level the
    logger was set to, or the error. *)
Inductive loaded :=
| Loaded (config : Config) (level : Level)
| LoadFailed (err : configError).

(** [strings.Split(s, sep)] for a separator of one byte: the pieces of [s]
    between the separators; a string without separator is its only
    piece. *)
Fixpoint Split (s : string) (sep : ascii) : list string :=
  match s with
  | EmptyString => [""]
  | String c rest =>
      if Ascii.eqb c sep then "" :: Split rest sep
      else match Split rest sep with
           | piece :: pieces => String c piece :: pieces
           | [] => [String c ""]
           end
  end.

(** [strings.Join(pieces, sep)] for a separator of one byte. *)
Fixpoint Join (pieces : list string) (sep : ascii) : string :=
  match pieces with
  | [] => ""
  | [piece] => piece
  | piece :: rest => piece +:+ String sep (Join rest sep)
  end.

(** Does a string contain the byte? *)
Fixpoint containsByte (sep : ascii) (s : string) : bool :=
  match s with
  | EmptyString => false
  | String c rest => if Ascii.eqb c sep then true else containsByte sep rest
  end.

(** The defaults of [LoadConfig] (lines 29-33). *)
Definition defaultConfig : Config :=
  {| RPCEndpoint := "https://api.mainnet-beta.solana.com";
     WSEndpoint := "wss://api.mainnet-beta.solana.com";
     Wallets := [];
     Tokens := [];
     LogLevel := "info" |}.

(** The overrides by the environment (lines 51-69), in the order of the
    source. *)
Definition overrideFromEnv (env : ConfigEnv) (config : Config) : Config :=
  let config :=
    if negb (String.eqb (Getenv env "SOLANA_RPC_ENDPOINT") "")
    then mkConfig (Getenv env "SOLANA_RPC_ENDPOINT") (WSEndpoint config)
                  (Wallets config) (Tokens config) (LogLevel config)
    else config in
  let config :=
    if negb (String.eqb (Getenv env "SOLANA_WS_ENDPOINT") "")
    then mkConfig (RPCEndpoint config) (Getenv env "SOLANA_WS_ENDPOINT")
                  (Wallets config) (Tokens config) (LogLevel config)
    else config in
  let config :=
    if negb (String.eqb (Getenv env "MONITOR_WALLETS") "")
    then mkConfig (RPCEndpoint config) (WSEndpoint config)
                  (Split (Getenv env "MONITOR_WALLETS") ",") (Tokens config)
                  (LogLevel config)
    else config in
  let config :=
    if negb (String.eqb (Getenv env "MONITOR_TOKENS") "")
    then mkConfig (RPCEndpoint config) (WSEndpoint config) (Wallets config)
                  (Split (Getenv env "MONITOR_TOKENS") ",") (LogLevel config)
    else config in
  if negb (String.eqb (Getenv env "LOG_LEVEL") "")
  then mkConfig (RPCEndpoint config) (WSEndpoint config) (Wallets config)
                (Tokens config) (Getenv env "LOG_LEVEL")
  else config.

(** The set-up of the logger (lines 72-76): the level it is set to. *)
Definition loggerLevel (env : ConfigEnv) (config : Config) : Level :=
  match ParseLevel env (LogLevel config) with
  | Some level => level
  | None => InfoLevel
  end.

(** [LoadConfig] (lines 24-82). *)
Definition LoadConfig (env : ConfigEnv) : loaded :=
  let config := defaultConfig in
  let fromFile :=
    if statConfigFile env then
      match readConfigFile env with
      | None => inl ErrReadConfigFile
      | Some data =>
          match jsonUnmarshalConfig env data config with
          | None => inl ErrParseConfigFile
          | Some config' => inr config'
          end
      end
    else inr config in
  match fromFile with
  | inl err => LoadFailed err
  | inr config =>
      let config := overrideFromEnv env config in
      Loaded config (loggerLevel env config)
  end.

(** An environment without a file in which two variables are set. *)
Definition exampleEnv : ConfigEnv :=
  {| Getenv := λ name,
       if String.eqb name "MONITOR_WALLETS" then "W1,W2"
       else if String.eqb name "LOG_LEVEL" then "loud"
       else "";
     statConfigFile := false;
     readConfigFile := None;
     jsonUnmarshalConfig := λ _ _, None;
     ParseLevel := λ s, if String.eqb s "info" then Some 4 else None |}.

(** * Proofs *)

(** ** The model on the scenario of the specification

    Bootstrap reports (A, M1, 100), the poll (A, M1, 150), the subscription
    (A, M1, 150) again: two changes are dispatched, the second report of 150
    sends nothing and still replaces the stored record. *)
Example scenario_trace :
  ∃ l w,
    scenario emptyWorld = Some (l, w) ∧
    heap w !! l
    = Some {[ "A:M1" := mkTokenAccountInfo "acc1" "A" "M1" 150 6 "" 2 ]} ∧
    out w
    = [ LogInfoBalanceChanged "A" "M1" 100;
        GoHandler 7 (mkTokenAccountInfo "acc1" "A" "M1" 100 6 "spl" 0);
        GoSubscribe "A";
        GoPolling;
        LogInfoBalanceChanged "A" "M1" 150;
        GoHandler 7 (mkTokenAccountInfo "acc1" "A" "M1" 150 6 "spl" 1) ].
Proof.
  eexists _, _. split; [by vm_compute|]. split; by vm_compute.
Qed.

(** ** The world and the monad *)

Lemma addOut_nil w : addOut [] w = w.
Proof. destruct w; unfold addOut; simpl. by rewrite app_nil_r. Qed.

Lemma addOut_addOut es1 es2 w : addOut es2 (addOut es1 w) = addOut (es1 ++ es2) w.
Proof. unfold addOut; simpl. by rewrite app_assoc. Qed.

Lemma setHeap_id w : setHeap (heap w) w = w.
Proof. by destruct w. Qed.

Lemma bind_run {A B} (c : M A) (k : A → M B) w a w' :
  c w = Some (a, w') → bind c k w = k a w'.
Proof. unfold bind. by intros ->. Qed.

Lemma bind_inv {A B} (c : M A) (k : A → M B) w b w'' :
  bind c k w = Some (b, w'') →
  ∃ a w', c w = Some (a, w') ∧ k a w' = Some (b, w'').
Proof.
  unfold bind. destruct (c w) as [[a w']|] eqn:E; [|done].
  intros Hk. by exists a, w'.
Qed.

(** ** [processAccountUpdate] *)

Lemma notifyHandlers_run hs account w :
  notifyHandlers hs account w
  = Some (tt, addOut (map (λ handler, GoHandler handler account) hs) w).
Proof.
  revert w. induction hs as [|h hs IH]; intros w; simpl.
  - by rewrite addOut_nil.
  - unfold bind, emit. by rewrite IH, addOut_addOut.
Qed.

(** The whole effect of one update on a world whose state map exists. *)
Lemma processAccountUpdate_run m account w st :
  store m w = Some st →
  processAccountUpdate m account w
  = Some (tt, addOut (if balanceDiffers st account then dispatch m account else [])
                (setHeap (<[state m := <[stateKey account := account]> st]> (heap w)) w)).
Proof.
  unfold store. intros Hst.
  unfold processAccountUpdate, balanceDiffers, dispatch.
  unfold bind at 1. unfold mapIndex, mapRead, bind, ret. rewrite Hst. simpl.
  destruct (st !! stateKey account) as [old|]; simpl;
    unfold mapAssign; rewrite Hst.
  - destruct (Z.eqb (Balance old) (Balance account)); simpl.
    + by rewrite addOut_nil.
    + unfold emit. by rewrite notifyHandlers_run, addOut_addOut.
  - unfold emit. by rewrite notifyHandlers_run, addOut_addOut.
Qed.

Lemma store_addOut m es w : store m (addOut es w) = store m w.
Proof. done. Qed.

Lemma store_setHeap m h w : store m (setHeap h w) = h !! state m.
Proof. done. Qed.

Lemma dispatch_not_nil m account : dispatch m account ≠ [].
Proof. done. Qed.

Lemma balanceDiffers_true st account :
  balanceDiffers st account = true ↔
  st !! stateKey account = None ∨
  ∃ oldAccount, st !! stateKey account = Some oldAccount ∧
                Balance oldAccount ≠ Balance account.
Proof.
  unfold balanceDiffers. destruct (st !! stateKey account) as [old|].
  - rewrite negb_true_iff, Z.eqb_neq. split.
    + intros Hne. right. by exists old.
    + intros [?|(old' & [= <-] & Hne)]; done.
  - split; [by left|done].
Qed.

(** ** The state key *)

Lemma pairKey_nil_l owner mint mint' :
  containsColon owner = false →
  pairKey owner mint = pairKey "" mint' → owner = "".
Proof.
  destruct owner as [|c owner]; [done|]. unfold pairKey; simpl.
  intros Hc Heq. injection Heq as Hcolon _. subst c. done.
Qed.

(** The key determines the pair when the owners are free of the separator. *)
Lemma pairKey_inj owner mint owner' mint' :
  containsColon owner = false →
  containsColon owner' = false →
  pairKey owner mint = pairKey owner' mint' →
  owner = owner' ∧ mint = mint'.
Proof.
  revert owner'. induction owner as [|c owner IH]; intros owner' Hc Hc' Heq.
  - pose proof (pairKey_nil_l owner' mint' mint Hc' (eq_sym Heq)) as ->.
    unfold pairKey in Heq; simpl in Heq. injection Heq as Heq.
    simpl in Heq. by subst.
  - destruct owner' as [|c' owner'].
    + by pose proof (pairKey_nil_l _ _ _ Hc Heq).
    + unfold pairKey in Heq; simpl in Heq. injection Heq as -> Heq.
      simpl in Hc, Hc'. destruct (Ascii.eqb c' ":"); [done|].
      destruct (IH owner' Hc Hc' Heq) as [-> ->]. done.
Qed.

(** ** Claims about the update path *)

(** C1. For every incoming record applied through [processAccountUpdate] to
    a monitor whose state map exists, the call returns; a change is declared
    (the log line and the handlers' goroutines are sent out) if and only if
    the map held no record under the record's key or held one whose balance
    differs from the incoming balance, and nothing is sent out otherwise; in
    every case the record stored under that key afterwards is the incoming
    record. *)
Theorem processAccountUpdate_declares_change m account w st :
  store m w = Some st →
  ∃ w' st',
    processAccountUpdate m account w = Some (tt, w') ∧
    store m w' = Some st' ∧
    st' !! stateKey account = Some account ∧
    (out w' = out w ++ dispatch m account ↔
       st !! stateKey account = None ∨
       ∃ oldAccount, st !! stateKey account = Some oldAccount ∧
                     Balance oldAccount ≠ Balance account) ∧
    (out w' = out w ++ dispatch m account ∨ out w' = out w).
Proof.
  intros Hst. eexists _, _. split; [by apply processAccountUpdate_run|].
  rewrite store_addOut, store_setHeap, lookup_insert_eq.
  split; [done|]. rewrite lookup_insert_eq. split; [done|].
  rewrite <- balanceDiffers_true. simpl.
  destruct (balanceDiffers st account); simpl.
  - split; [done|]. by left.
  - rewrite app_nil_r. split; [|by right]. split; [|done].
    intros Heq. exfalso. apply (dispatch_not_nil m account).
    apply (f_equal length) in Heq. rewrite length_app in Heq.
    apply length_zero_iff_nil. lia.
Qed.

Lemma processAccountUpdate_declares_change_witness :
  store (exampleMonitor ["W2"] []) (worldWith ∅) = Some ∅ ∧
  ∃ w' st',
    processAccountUpdate (exampleMonitor ["W2"] []) (exampleAccount "M1" 100)
      (worldWith ∅) = Some (tt, w') ∧
    store (exampleMonitor ["W2"] []) w' = Some st' ∧
    st' !! stateKey (exampleAccount "M1" 100) = Some (exampleAccount "M1" 100) ∧
    (out w' = out (worldWith ∅)
              ++ dispatch (exampleMonitor ["W2"] []) (exampleAccount "M1" 100) ↔
       (∅ : gmap string TokenAccountInfo) !! stateKey (exampleAccount "M1" 100) = None ∨
       ∃ oldAccount,
         (∅ : gmap string TokenAccountInfo) !! stateKey (exampleAccount "M1" 100)
           = Some oldAccount ∧
         Balance oldAccount ≠ Balance (exampleAccount "M1" 100)) ∧
    (out w' = out (worldWith ∅)
              ++ dispatch (exampleMonitor ["W2"] []) (exampleAccount "M1" 100)
     ∨ out w' = out (worldWith ∅)).
Proof.
  split; [reflexivity|].
  apply (processAccountUpdate_declares_change (exampleMonitor ["W2"] [])
           (exampleAccount "M1" 100) (worldWith ∅) ∅).
  reflexivity.
Defined.

(** C7. Applying the identical record twice in a row: the second application
    computes [balanceChanged = false] (the record stored by the first has
    the same balance), sends nothing out and leaves the world, hence the
    stored record, exactly as the first application left it. *)
Theorem processAccountUpdate_idempotent m account w st :
  store m w = Some st →
  ∃ w1 st1,
    processAccountUpdate m account w = Some (tt, w1) ∧
    store m w1 = Some st1 ∧
    st1 !! stateKey account = Some account ∧
    balanceDiffers st1 account = false ∧
    processAccountUpdate m account w1 = Some (tt, w1).
Proof.
  intros Hst.
  set (st1 := <[stateKey account := account]> st).
  set (w1 := addOut (if balanceDiffers st account then dispatch m account else [])
               (setHeap (<[state m := st1]> (heap w)) w)).
  assert (Hst1 : store m w1 = Some st1) by apply lookup_insert_eq.
  assert (Hsame : balanceDiffers st1 account = false).
  { unfold balanceDiffers, st1. rewrite lookup_insert_eq.
    by rewrite Z.eqb_refl. }
  exists w1, st1. split; [by apply processAccountUpdate_run|].
  split; [done|]. split; [apply lookup_insert_eq|]. split; [done|].
  rewrite (processAccountUpdate_run m account w1 st1 Hst1), Hsame, addOut_nil.
  do 2 f_equal. unfold st1 at 1. rewrite insert_insert_eq. fold st1.
  rewrite <- (setHeap_id w1) at 2. f_equal.
  unfold w1; simpl. by rewrite insert_insert_eq.
Qed.

Lemma processAccountUpdate_idempotent_witness :
  store (exampleMonitor ["W2"] []) (worldWith ∅) = Some ∅ ∧
  ∃ w1 st1,
    processAccountUpdate (exampleMonitor ["W2"] []) (exampleAccount "M1" 100)
      (worldWith ∅) = Some (tt, w1) ∧
    store (exampleMonitor ["W2"] []) w1 = Some st1 ∧
    st1 !! stateKey (exampleAccount "M1" 100) = Some (exampleAccount "M1" 100) ∧
    balanceDiffers st1 (exampleAccount "M1" 100) = false ∧
    processAccountUpdate (exampleMonitor ["W2"] []) (exampleAccount "M1" 100) w1
      = Some (tt, w1).
Proof.
  split; [reflexivity|].
  apply (processAccountUpdate_idempotent (exampleMonitor ["W2"] [])
           (exampleAccount "M1" 100) (worldWith ∅) ∅).
  reflexivity.
Defined.




(** ** Sequences of updates *)

Lemma about_app k es1 es2 : about k (es1 ++ es2) = about k es1 ++ about k es2.
Proof. apply filter_app. Qed.

Lemma about_dispatch k m account :
  about k (dispatch m account)
  = if decide (stateKey account = k) then dispatch m account else [].
Proof.
  unfold about, dispatch. rewrite filter_cons. simpl.
  change (pairKey (Owner account) (Mint account)) with (stateKey account).
  assert (Hhs : ∀ hs,
    filter (λ e, eventKey e = Some k) (map (λ h, GoHandler h account) hs)
    = if decide (stateKey account = k)
      then map (λ h, GoHandler h account) hs else []).
  { induction hs as [|h hs IH]; simpl.
    - by destruct (decide _).
    - rewrite filter_cons, IH. simpl.
      destruct (decide (stateKey account = k)) as [->|Hne].
      + by rewrite decide_True.
      + rewrite decide_False; [done|]. by intros [=]. }
  rewrite Hhs. destruct (decide (stateKey account = k)) as [->|Hne].
  - by rewrite decide_True.
  - rewrite decide_False; [done|]. by intros [=].
Qed.

(** The notifications about one key depend only on the updates to that key
    and on the record the map held under it. *)
Lemma processAll_about m k updates w st :
  store m w = Some st →
  ∃ w' events st',
    processAll m updates w = Some (tt, w') ∧
    out w' = out w ++ events ∧
    store m w' = Some st' ∧
    about k events
    = changesFor m (st !! k) (filter (λ u, stateKey u = k) updates).
Proof.
  revert w st. induction updates as [|u us IH]; intros w st Hst; simpl.
  - exists w, [], st. by rewrite app_nil_r.
  - rewrite (bind_run _ _ _ _ _ (processAccountUpdate_run m u w st Hst)).
    set (w1 := addOut _ _).
    destruct (IH w1 (<[stateKey u := u]> st)) as (w' & es & st' & Hrun & Hout & Hst' & Habout).
    { apply lookup_insert_eq. }
    exists w', ((if balanceDiffers st u then dispatch m u else []) ++ es), st'.
    split; [done|]. split.
    { rewrite Hout. unfold w1; simpl. by rewrite app_assoc. }
    split; [done|]. rewrite about_app, Habout, filter_cons.
    destruct (decide (stateKey u = k)) as [<-|Hne]; simpl.
    + rewrite lookup_insert_eq. f_equal. unfold balanceDiffers.
      destruct (match st !! stateKey u with Some _ => _ | None => _ end).
      * rewrite about_dispatch. by rewrite decide_True.
      * done.
    + rewrite lookup_insert_ne by done.
      destruct (balanceDiffers st u); [|done].
      rewrite about_dispatch. by rewrite decide_False.
Qed.

(** ** [NewMonitor] and [RegisterHandler] *)

Lemma NewMonitor_run ws ts w0 :
  NewMonitor ws ts w0
  = Some (mkMonitor ws ts [] (fresh (dom (heap w0))),
          setHeap (<[fresh (dom (heap w0)) := ∅]> (heap w0)) w0).
Proof. done. Qed.

Lemma RegisterHandler_all m0 hs :
  foldl RegisterHandler m0 hs
  = mkMonitor (wallets m0) (tokens m0) (handlers m0 ++ hs) (state m0).
Proof.
  revert m0. induction hs as [|h hs IH]; intros m0; simpl.
  - destruct m0; simpl. by rewrite app_nil_r.
  - rewrite IH. simpl. by rewrite <- app_assoc.
Qed.

Lemma NewMonitor_store ws ts w0 m0 w1 hs :
  NewMonitor ws ts w0 = Some (m0, w1) →
  store (foldl RegisterHandler m0 hs) w1 = Some ∅ ∧ heap w0 !! state m0 = None.
Proof.
  rewrite NewMonitor_run. intros [= <- <-]. rewrite RegisterHandler_all.
  unfold store; simpl. split; [apply lookup_insert_eq|].
  apply not_elem_of_dom, is_fresh.
Qed.

(** C2. On a monitor as [NewMonitor] builds it (with any handlers
    registered), take any sequence of updates in which those to one key are
    four, with balances b1, b2, b2, b3 where b1 differs from b2 and b2 from
    b3.  Applying the sequence in order through [processAccountUpdate]
    returns, and the notifications about that key are exactly three: the
    dispatch of the first update (b1), of the second (b2) and of the fourth
    (b3); the repeated b2 sends nothing. *)
Theorem processAccountUpdate_dedup ws ts w0 m0 w1 hs updates k u1 u2 u3 u4 :
  NewMonitor ws ts w0 = Some (m0, w1) →
  filter (λ u, stateKey u = k) updates = [u1; u2; u3; u4] →
  Balance u1 ≠ Balance u2 →
  Balance u3 = Balance u2 →
  Balance u3 ≠ Balance u4 →
  ∃ w' events,
    processAll (foldl RegisterHandler m0 hs) updates w1 = Some (tt, w') ∧
    out w' = out w1 ++ events ∧
    about k events
    = dispatch (foldl RegisterHandler m0 hs) u1
      ++ dispatch (foldl RegisterHandler m0 hs) u2
      ++ dispatch (foldl RegisterHandler m0 hs) u4.
Proof.
  intros Hnew Hks H12 H32 H34.
  destruct (NewMonitor_store ws ts w0 m0 w1 hs Hnew) as [Hst _].
  destruct (processAll_about (foldl RegisterHandler m0 hs) k updates w1 ∅ Hst)
    as (w' & es & st' & Hrun & Hout & _ & Habout).
  exists w', es. split; [done|]. split; [done|].
  rewrite Habout, Hks, lookup_empty. simpl.
  apply Z.eqb_neq in H12 as ->. apply Z.eqb_neq in H34 as ->.
  rewrite H32, Z.eqb_refl. simpl. by rewrite app_nil_r.
Qed.

Lemma processAccountUpdate_dedup_witness :
  NewMonitor ["W2"] [] emptyWorld = Some (mkMonitor ["W2"] [] [] 0, worldWith ∅) ∧
  ∃ w' events,
    processAll (foldl RegisterHandler (mkMonitor ["W2"] [] [] 0) [7])
      [exampleAccount "M1" 100; exampleAccount "M2" 5; exampleAccount "M1" 150;
       exampleAccount "M1" 150; exampleAccount "M2" 6; exampleAccount "M1" 200]
      (worldWith ∅) = Some (tt, w') ∧
    out w' = out (worldWith ∅) ++ events ∧
    about (pairKey "W2" "M1") events
    = dispatch (foldl RegisterHandler (mkMonitor ["W2"] [] [] 0) [7])
        (exampleAccount "M1" 100)
      ++ dispatch (foldl RegisterHandler (mkMonitor ["W2"] [] [] 0) [7])
           (exampleAccount "M1" 150)
      ++ dispatch (foldl RegisterHandler (mkMonitor ["W2"] [] [] 0) [7])
           (exampleAccount "M1" 200).
Proof.
  split; [reflexivity|].
  apply (processAccountUpdate_dedup ["W2"] [] emptyWorld
           (mkMonitor ["W2"] [] [] 0) (worldWith ∅) [7]
           [exampleAccount "M1" 100; exampleAccount "M2" 5; exampleAccount "M1" 150;
            exampleAccount "M1" 150; exampleAccount "M2" 6; exampleAccount "M1" 200]
           (pairKey "W2" "M1")
           (exampleAccount "M1" 100) (exampleAccount "M1" 150)
           (exampleAccount "M1" 150) (exampleAccount "M1" 200)).
  - reflexivity.
  - vm_compute. reflexivity.
  - simpl. lia.
  - reflexivity.
  - simpl. lia.
Defined.

(** ** The filter *)

Lemma tokenListed_spec ts mint : tokenListed ts mint = true ↔ mint ∈ ts.
Proof.
  induction ts as [|t ts IH]; simpl.
  - split; [done|]. by intros ?%elem_of_nil.
  - rewrite elem_of_cons. destruct (String.eqb t mint) eqn:E.
    + apply String.eqb_eq in E. split; [by left|done].
    + apply String.eqb_neq in E. rewrite IH. split; [by right|].
      by intros [->|?].
Qed.

Lemma shouldTrackToken_spec m mint :
  shouldTrackToken m mint = true ↔ tracked m mint.
Proof.
  unfold shouldTrackToken, tracked. rewrite <- tokenListed_spec.
  destruct (tokens m) as [|t ts]; simpl.
  - split; [by left|done].
  - split; [by right|]. by intros [?|?].
Qed.

(** ** Worlds that differ by ingestion *)

Lemma quiet_refl w : quiet w w.
Proof. split; [done|]. exists []. by rewrite app_nil_r. Qed.

Lemma quiet_trans w1 w2 w3 : quiet w1 w2 → quiet w2 w3 → quiet w1 w3.
Proof.
  intros [Hh1 [es1 Ho1]] [Hh2 [es2 Ho2]]. split; [congruence|].
  exists (es1 ++ es2). by rewrite Ho2, Ho1, app_assoc.
Qed.

Lemma quiet_addOut es w : quiet w (addOut es w).
Proof. split; [done|]. by exists es. Qed.

Lemma ingests_store m w w' : ingests m w w' → is_Some (store m w').
Proof.
  intros (st & st' & es & _ & Hheap & _). unfold store. rewrite Hheap.
  rewrite lookup_insert_eq. by eexists.
Qed.

Lemma ingests_refl m w st : store m w = Some st → ingests m w w.
Proof.
  intros Hst. exists st, st, []. split; [done|]. split.
  { symmetry. by apply insert_id. }
  split; [by rewrite app_nil_r|]. split; [done|]. by left.
Qed.

Lemma ingests_trans m w1 w2 w3 : ingests m w1 w2 → ingests m w2 w3 → ingests m w1 w3.
Proof.
  intros (st1 & st2 & es1 & Hst1 & Hh1 & Ho1 & Hd1 & Hr1)
         (st2' & st3 & es2 & Hst2 & Hh2 & Ho2 & Hd2 & Hr2).
  unfold store in Hst2. rewrite Hh1, lookup_insert_eq in Hst2.
  injection Hst2 as <-.
  exists st1, st3, (es1 ++ es2). split; [done|]. split.
  { by rewrite Hh2, Hh1, insert_insert_eq. }
  split; [by rewrite Ho2, Ho1, app_assoc|]. split; [set_solver|].
  intros k account Hk. destruct (Hr2 k account Hk) as [Hold|?]; [|by right].
  by apply Hr1.
Qed.

Lemma quiet_ingests m w w' st : store m w = Some st → quiet w w' → ingests m w w'.
Proof.
  intros Hst [Hh [es Ho]]. exists st, st, es. split; [done|]. split.
  { rewrite Hh. symmetry. by apply insert_id. }
  split; [done|]. split; [done|]. by left.
Qed.

Lemma ingests_frame m w w' l : ingests m w w' → l ≠ state m → heap w' !! l = heap w !! l.
Proof.
  intros (st & st' & es & _ & Hheap & _) Hne. rewrite Hheap.
  by apply lookup_insert_ne.
Qed.

Lemma ingests_dom m w w' st st' :
  ingests m w w' → store m w = Some st → store m w' = Some st' → dom st ⊆ dom st'.
Proof.
  intros (st0 & st0' & es & Hst0 & Hheap & _ & Hd & _) Hst Hst'.
  unfold store in *. rewrite Hheap, lookup_insert_eq in Hst'. by simplify_eq.
Qed.

Lemma ingests_out m w w' : ingests m w w' → ∃ events, out w' = out w ++ events.
Proof. intros (st & st' & es & _ & _ & Ho & _). by exists es. Qed.

Lemma processAccountUpdate_ingests m account w st :
  store m w = Some st →
  tracked m (Mint account) →
  ∃ w', processAccountUpdate m account w = Some (tt, w') ∧ ingests m w w' ∧
        store m w' = Some (<[stateKey account := account]> st).
Proof.
  intros Hst Htr. eexists. split; [by apply processAccountUpdate_run|]. split.
  - exists st, (<[stateKey account := account]> st),
      (if balanceDiffers st account then dispatch m account else []).
    split; [done|]. split; [done|]. split; [done|].
    split; [rewrite dom_insert_L; set_solver|].
    intros k a. rewrite lookup_insert. case_decide as Hk.
    + intros [= <-]. by right.
    + by left.
  - apply lookup_insert_eq.
Qed.

(** The loop over the accounts of a wallet returns, and ingests. *)
Lemma trackAccounts_ingests m accounts w st :
  store m w = Some st →
  ∃ w', trackAccounts m accounts w = Some (tt, w') ∧ ingests m w w'.
Proof.
  revert w st. induction accounts as [|a rest IH]; intros w st Hst; simpl.
  - exists w. split; [done|]. by apply (ingests_refl m w st).
  - destruct (shouldTrackToken m (Mint a)) eqn:Htr.
    + apply shouldTrackToken_spec in Htr.
      destruct (processAccountUpdate_ingests m a w st Hst Htr) as (w1 & Hrun & Hin & Hst1).
      rewrite (bind_run _ _ _ _ _ Hrun).
      destruct (IH w1 _ Hst1) as (w' & Hrest & Hin').
      exists w'. split; [done|]. by apply (ingests_trans m w w1 w').
    + unfold bind, ret. exact (IH w st Hst).
Qed.

Lemma trackAccounts_app m l1 l2 w :
  trackAccounts m (l1 ++ l2) w = (trackAccounts m l1 ;; trackAccounts m l2) w.
Proof.
  revert w. induction l1 as [|a l1 IH]; intros w; simpl; [done|].
  unfold bind. destruct (if shouldTrackToken m (Mint a) then _ else _) as [[[] w1]|];
    [|done].
  by rewrite IH.
Qed.

Section Ingestion.
Context `{ext : Externals}.

(** ** The snapshot fetch *)

Lemma tokenInfos_run walletAddress items accounts w :
  ∃ accounts' w',
    tokenInfos walletAddress items accounts w = Some (accounts', w') ∧
    quiet w w' ∧
    ∀ a, a ∈ accounts' → a ∈ accounts ∨ Owner a = walletAddress.
Proof.
  revert accounts w. induction items as [|item rest IH]; intros accounts w; simpl.
  - exists accounts, w. split; [done|]. split; [apply quiet_refl|]. by left.
  - destruct (item_Parsed item) as [info|].
    + unfold bind at 1, now.
      set (w1 := mkWorld _ _ _ _ _ _). set (tokenInfo := mkTokenAccountInfo _ _ _ _ _ _ _).
      destruct (IH (accounts ++ [tokenInfo]) w1) as (accounts' & w' & Hrun & Hq & Hown).
      exists accounts', w'. split; [done|]. split.
      { apply (quiet_trans w w1 w'); [|done]. split; [done|].
        exists []. simpl. by rewrite app_nil_r. }
      intros a Ha. destruct (Hown a Ha) as [Hin|?]; [|by right].
      apply elem_of_app in Hin as [?|Hin]; [by left|].
      apply list_elem_of_singleton in Hin as ->. by right.
    + unfold bind at 1, emit.
      destruct (IH accounts (addOut [LogWarnParseData (item_Pubkey item)] w))
        as (accounts' & w' & Hrun & Hq & Hown).
      exists accounts', w'. split; [done|]. split; [|done].
      apply (quiet_trans w (addOut [LogWarnParseData (item_Pubkey item)] w) w');
        [apply quiet_addOut|done].
Qed.

(** [GetTokenAccounts] returns, touches no map, and every account it
    returns is owned by the wallet asked for, whose address decoded. *)
Lemma GetTokenAccounts_run walletAddress w :
  ∃ r w',
    GetTokenAccounts walletAddress w = Some (r, w') ∧
    quiet w w' ∧
    ∀ accounts, r = Ok accounts →
      PublicKeyFromBase58 walletAddress = true ∧
      ∀ a, a ∈ accounts → Owner a = walletAddress.
Proof.
  unfold GetTokenAccounts. destruct (PublicKeyFromBase58 walletAddress); simpl.
  - unfold bind at 1, rpcRequest. set (w1 := mkWorld _ _ _ _ _ _).
    assert (Hq1 : quiet w w1).
    { split; [done|]. exists []. simpl. by rewrite app_nil_r. }
    destruct (rpcGetTokenAccountsByOwner (rpcCalls w) walletAddress) as [items|].
    + destruct (tokenInfos_run walletAddress items [] w1)
        as (accounts & w' & Hrun & Hq & Hown).
      exists (Ok accounts), w'. rewrite (bind_run _ _ _ _ _ Hrun).
      split; [done|]. split; [by apply (quiet_trans w w1 w')|].
      intros ? [= <-]. split; [done|]. intros a Ha.
      destruct (Hown a Ha) as [Hin|?]; [|done]. by apply elem_of_nil in Hin.
    + exists (Err ErrGetTokenAccounts), w1. split; [done|]. split; [done|]. done.
  - exists (Err ErrInvalidWalletAddress), w. split; [done|].
    split; [apply quiet_refl|]. done.
Qed.

(** ** Bootstrap, poll, subscriptions *)

Lemma updateInitialStateFrom_ingests m ws w st :
  store m w = Some st →
  ∃ r w', updateInitialStateFrom m ws w = Some (r, w') ∧ ingests m w w'.
Proof.
  revert w st. induction ws as [|wallet rest IH]; intros w st Hst; simpl.
  - exists None, w. split; [done|]. by apply (ingests_refl m w st).
  - destruct (GetTokenAccounts_run wallet w) as (r & w1 & Hget & Hq & _).
    rewrite (bind_run _ _ _ _ _ Hget).
    pose proof (quiet_ingests m w w1 st Hst Hq) as Hin1.
    destruct r as [accounts|err].
    + destruct (ingests_store m w w1 Hin1) as [st1 Hst1].
      destruct (trackAccounts_ingests m accounts w1 st1 Hst1) as (w2 & Htrack & Hin2).
      rewrite (bind_run _ _ _ _ _ Htrack).
      destruct (ingests_store m w1 w2 Hin2) as [st2 Hst2].
      destruct (IH w2 st2 Hst2) as (r & w' & Hrest & Hin3).
      exists r, w'. split; [done|].
      apply (ingests_trans m w w1 w'); [done|].
      by apply (ingests_trans m w1 w2 w').
    + by exists (Some err), w1.
Qed.

Lemma updateInitialStateFrom_app m ws1 ws2 w w1 :
  updateInitialStateFrom m ws1 w = Some (None, w1) →
  updateInitialStateFrom m (ws1 ++ ws2) w = updateInitialStateFrom m ws2 w1.
Proof.
  revert w. induction ws1 as [|wallet rest IH]; intros w; simpl.
  - by intros [= ->].
  - unfold bind. destruct (GetTokenAccounts wallet w) as [[[accounts|err] wa]|];
      [|done|done].
    destruct (trackAccounts m accounts wa) as [[[] wb]|]; [|done].
    apply IH.
Qed.

Lemma pollWallets_ingests m ws w st :
  store m w = Some st →
  ∃ w', pollWallets m ws w = Some (tt, w') ∧ ingests m w w'.
Proof.
  revert w st. induction ws as [|wallet rest IH]; intros w st Hst; simpl.
  - exists w. split; [done|]. by apply (ingests_refl m w st).
  - destruct (GetTokenAccounts_run wallet w) as (r & w1 & Hget & Hq & _).
    rewrite (bind_run _ _ _ _ _ Hget).
    pose proof (quiet_ingests m w w1 st Hst Hq) as Hin1.
    destruct (ingests_store m w w1 Hin1) as [st1 Hst1].
    destruct r as [accounts|err].
    + destruct (trackAccounts_ingests m accounts w1 st1 Hst1) as (w2 & Htrack & Hin2).
      rewrite (bind_run _ _ _ _ _ Htrack).
      destruct (ingests_store m w1 w2 Hin2) as [st2 Hst2].
      destruct (IH w2 st2 Hst2) as (w' & Hrest & Hin3).
      exists w'. split; [done|].
      apply (ingests_trans m w w1 w'); [done|].
      by apply (ingests_trans m w1 w2 w').
    + unfold bind at 1, emit.
      destruct (IH (addOut [LogErrorPoll wallet err] w1) st1 Hst1) as (w' & Hrest & Hin3).
      exists w'. split; [done|].
      apply (ingests_trans m w w1 w'); [done|].
      apply (ingests_trans m w1 (addOut [LogErrorPoll wallet err] w1) w'); [|done].
      apply (quiet_ingests m _ _ st1 Hst1), quiet_addOut.
Qed.

Lemma goSubscribeAll_run ws w :
  goSubscribeAll ws w = Some (tt, addOut (map GoSubscribe ws) w).
Proof.
  revert w. induction ws as [|wallet rest IH]; intros w; simpl.
  - by rewrite addOut_nil.
  - unfold bind, emit. by rewrite IH, addOut_addOut.
Qed.

(** [Start] returns on a monitor whose state map exists, and ingests. *)
Lemma Start_ingests m w st :
  store m w = Some st →
  ∃ r w', Start m w = Some (r, w') ∧ ingests m w w'.
Proof.
  intros Hst. unfold Start, updateInitialState.
  destruct (updateInitialStateFrom_ingests m (wallets m) w st Hst)
    as (r & w1 & Hrun & Hin).
  rewrite (bind_run _ _ _ _ _ Hrun). destruct r as [err|].
  - by exists (Some err), w1.
  - unfold bind at 1. rewrite goSubscribeAll_run. unfold bind, emit, ret.
    eexists None, _. split; [done|].
    apply (ingests_trans m w w1 _); [done|]. rewrite addOut_addOut.
    destruct (ingests_store m w w1 Hin) as [st1 Hst1].
    apply (quiet_ingests m _ _ st1 Hst1), quiet_addOut.
Qed.

End Ingestion.

Section Subscription.
Context `{ext : Externals}.

(** The world after one reading of the clock. *)
Lemma now_run w :
  now w = Some (timeNow (clockReads w),
                mkWorld (heap w) (rpcCalls w) (S (clockReads w)) (wsCalls w)
                        (subscriptions w) (out w)).
Proof. done. Qed.

Lemma now_quiet w t w' : now w = Some (t, w') → heap w' = heap w ∧ out w' = out w.
Proof. by intros [= _ <-]. Qed.

(** The three outcomes of [parseTokenAccountFromSubscription]: the pair
    (nil, nil), an error, or a record; a record only for a notification of
    the token program whose decoded owner is the wallet and whose amount
    parses, and then its owner is the wallet and only the clock moved. *)
Lemma parseTokenAccountFromSubscription_cases notification walletAddress w :
  parseTokenAccountFromSubscription notification walletAddress w = Some (Ok None, w) ∨
  (∃ err, parseTokenAccountFromSubscription notification walletAddress w
          = Some (Err err, w)) ∨
  (∃ tokenAccount amount account w1,
     acc_Owner (Value_Account notification) = TokenProgramID ∧
     decodeAccount (Value_Account notification) = Some tokenAccount ∧
     ta_Info_Owner tokenAccount = walletAddress ∧
     U64SetString (ta_Info_Amount tokenAccount) = Some amount ∧
     Owner account = walletAddress ∧
     Mint account = ta_Info_Mint tokenAccount ∧
     Balance account = uint64 amount ∧
     heap w1 = heap w ∧ out w1 = out w ∧
     parseTokenAccountFromSubscription notification walletAddress w
     = Some (Ok (Some account), w1)).
Proof.
  unfold parseTokenAccountFromSubscription, decodeAccount.
  destruct (String.eqb (acc_Owner (Value_Account notification)) TokenProgramID) eqn:Eprog;
    simpl; [|by left].
  apply String.eqb_eq in Eprog.
  destruct (jsonMarshal (Value_Account notification)) as [accountData|];
    [|right; left; by eexists].
  destruct (jsonUnmarshal accountData) as [tokenAccount|];
    [|right; left; by eexists].
  destruct (String.eqb (ta_Info_Owner tokenAccount) walletAddress) eqn:Eown;
    simpl; [|by left].
  apply String.eqb_eq in Eown.
  destruct (U64SetString (ta_Info_Amount tokenAccount)) as [amount|] eqn:Eamt;
    [|right; left; by eexists].
  right; right. unfold bind, now, ret.
  exists tokenAccount, amount,
    (mkTokenAccountInfo (Value_Pubkey notification) walletAddress
       (ta_Info_Mint tokenAccount) (uint64 amount) (ta_Info_Decimals tokenAccount)
       "" (timeNow (clockReads w))),
    (mkWorld (heap w) (rpcCalls w) (S (clockReads w)) (wsCalls w)
       (subscriptions w) (out w)).
  repeat (split; [done|]). done.
Qed.

(** A notification that does not decode, or decodes to another owner or to
    an amount that does not parse, yields no record. *)
Lemma parseTokenAccountFromSubscription_drops notification walletAddress w :
  decodeAccount (Value_Account notification) = None ∨
  (∃ tokenAccount,
     decodeAccount (Value_Account notification) = Some tokenAccount ∧
     (ta_Info_Owner tokenAccount ≠ walletAddress ∨
      U64SetString (ta_Info_Amount tokenAccount) = None)) →
  parseTokenAccountFromSubscription notification walletAddress w = Some (Ok None, w) ∨
  ∃ err, parseTokenAccountFromSubscription notification walletAddress w
         = Some (Err err, w).
Proof.
  intros Hbad.
  destruct (parseTokenAccountFromSubscription_cases notification walletAddress w)
    as [?|[?|(tokenAccount & amount & account & w1 & _ & Hdec & Hown & Hamt & _)]];
    [by left|by right|].
  exfalso. destruct Hbad as [Hnone|(tokenAccount' & Hdec' & [Hne|Hnoamt])].
  - congruence.
  - rewrite Hdec in Hdec'. by injection Hdec' as <-.
  - rewrite Hdec in Hdec'. injection Hdec' as <-. congruence.
Qed.

Lemma walletCallback_ingests m account w st :
  store m w = Some st →
  ∃ w', walletCallback m account w = Some (tt, w') ∧ ingests m w w'.
Proof.
  intros Hst. unfold walletCallback.
  destruct (shouldTrackToken m (Mint account)) eqn:Htr; simpl.
  - apply shouldTrackToken_spec in Htr.
    destruct (processAccountUpdate_ingests m account w st Hst Htr) as (w' & ? & ? & _).
    by exists w'.
  - exists w. split; [done|]. by apply (ingests_refl m w st).
Qed.

Lemma deliver_ingests m walletAddress res w st :
  store m w = Some st →
  ∃ w', deliver m walletAddress res w = Some (tt, w') ∧ ingests m w w'.
Proof.
  intros Hst. unfold deliver, programCallback.
  destruct (parseTokenAccountFromSubscription_cases res walletAddress w)
    as [Hp|[[err Hp]|(ta & amount & account & w1 & _ & _ & _ & _ & _ & _ & _ & Hh & Ho & Hp)]];
    rewrite (bind_run _ _ _ _ _ Hp).
  - exists w. split; [done|]. by apply (ingests_refl m w st).
  - eexists. split; [done|]. apply (quiet_ingests m _ _ st Hst), quiet_addOut.
  - assert (Hst1 : store m w1 = Some st) by (unfold store; by rewrite Hh).
    destruct (walletCallback_ingests m account w1 st Hst1) as (w' & Hrun & Hin).
    exists w'. split; [done|]. apply (ingests_trans m w w1 w'); [|done].
    apply (quiet_ingests m _ _ st Hst). split; [done|]. exists [].
    by rewrite app_nil_r.
Qed.

Lemma subscriptionTask_quiet m walletAddress w :
  ∃ w', subscriptionTask m walletAddress w = Some (tt, w') ∧ quiet w w'.
Proof.
  unfold subscriptionTask, subscribeToWalletUpdates, SubscribeToTokenAccountUpdates.
  destruct (PublicKeyFromBase58 walletAddress); simpl.
  - unfold bind, wsSubscribe. destruct (wsProgramSubscribe (wsCalls w)); simpl.
    + eexists. split; [done|]. split; [done|]. exists []. simpl. by rewrite app_nil_r.
    + eexists. split; [done|]. split; [done|]. by eexists.
  - unfold bind, ret, emit. eexists. split; [done|]. apply quiet_addOut.
Qed.

(** Every activity of the monitor ingests. *)
Lemma monitorStep_ingests m w w' st :
  store m w = Some st → monitorStep m w w' → ingests m w w'.
Proof.
  intros Hst Hstep. destruct Hstep as [w r w' Hrun|w wa w' _ Hrun|w wa res w' _ Hrun|w w' _ Hrun].
  - destruct (Start_ingests m w st Hst) as (r' & w'' & Hrun' & Hin).
    rewrite Hrun in Hrun'. by injection Hrun' as _ <-.
  - destruct (subscriptionTask_quiet m wa w) as (w'' & Hrun' & Hq).
    rewrite Hrun in Hrun'. injection Hrun' as <-.
    by apply (quiet_ingests m w w' st).
  - destruct (deliver_ingests m wa res w st Hst) as (w'' & Hrun' & Hin).
    rewrite Hrun in Hrun'. by injection Hrun' as <-.
  - destruct (pollWallets_ingests m (wallets m) w st Hst) as (w'' & Hrun' & Hin).
    unfold pollTick in Hrun. rewrite Hrun in Hrun'. by injection Hrun' as <-.
Qed.

End Subscription.

(** ** Claims about the subscription and the filter *)

(** C9. For every notification delivered to the subscription of a wallet,
    one of three things happens, whatever the callback: the notification is
    dropped and the world is unchanged; it is dropped with one warning
    logged; or it is forwarded to the callback, and then the decoded
    record's owner equals the wallet of the subscription, the forwarded
    record has that owner, and no map and no trace entry changed before the
    callback runs.  Moreover a notification that does not decode, or whose
    decoded owner is another wallet (or whose amount does not parse), is
    dropped by the monitor: [deliver] returns with every map as it was and
    nothing sent out but, at most, the warning. *)
Theorem subscription_forwards_only_own_records `{ext : Externals}
    walletAddress res w :
  ((∀ callback, programCallback walletAddress callback res w = Some (tt, w)) ∨
   (∃ err, ∀ callback,
      programCallback walletAddress callback res w
      = Some (tt, addOut [LogWarnParseUpdate err] w)) ∨
   (∃ tokenAccount account w1,
      decodeAccount (Value_Account res) = Some tokenAccount ∧
      ta_Info_Owner tokenAccount = walletAddress ∧
      Owner account = walletAddress ∧
      heap w1 = heap w ∧ out w1 = out w ∧
      ∀ callback,
        programCallback walletAddress callback res w = callback account w1)) ∧
  (decodeAccount (Value_Account res) = None ∨
   (∃ tokenAccount,
      decodeAccount (Value_Account res) = Some tokenAccount ∧
      (ta_Info_Owner tokenAccount ≠ walletAddress ∨
       U64SetString (ta_Info_Amount tokenAccount) = None)) →
   ∀ m, deliver m walletAddress res w = Some (tt, w) ∨
        ∃ err, deliver m walletAddress res w
               = Some (tt, addOut [LogWarnParseUpdate err] w)).
Proof.
  split.
  - destruct (parseTokenAccountFromSubscription_cases res walletAddress w)
      as [Hp|[[err Hp]|(ta & amount & account & w1 & _ & Hdec & Hown & _ & Hacc & _ & _ & Hh & Ho & Hp)]].
    + left. intros callback. unfold programCallback.
      by rewrite (bind_run _ _ _ _ _ Hp).
    + right; left. exists err. intros callback. unfold programCallback.
      by rewrite (bind_run _ _ _ _ _ Hp).
    + right; right. exists ta, account, w1. repeat (split; [done|]).
      intros callback. unfold programCallback.
      by rewrite (bind_run _ _ _ _ _ Hp).
  - intros Hbad m. unfold deliver, programCallback.
    destruct (parseTokenAccountFromSubscription_drops res walletAddress w Hbad)
      as [Hp|[err Hp]]; rewrite (bind_run _ _ _ _ _ Hp).
    + by left.
    + right. by exists err.
Qed.

Lemma subscription_forwards_only_own_records_witness :
  @decodeAccount exampleNode (mkRpcAccount 0 TokenProgramID "" false 0) = None ∧
  (@deliver exampleNode (exampleMonitor ["W2"] []) "W2"
     (mkProgramNotification "acc1" (mkRpcAccount 0 TokenProgramID "" false 0))
     (worldWith ∅) = Some (tt, worldWith ∅) ∨
   ∃ err,
     @deliver exampleNode (exampleMonitor ["W2"] []) "W2"
       (mkProgramNotification "acc1" (mkRpcAccount 0 TokenProgramID "" false 0))
       (worldWith ∅) = Some (tt, addOut [LogWarnParseUpdate err] (worldWith ∅))).
Proof.
  split; [reflexivity|].
  apply (proj2 (@subscription_forwards_only_own_records exampleNode "W2"
                  (mkProgramNotification "acc1"
                     (mkRpcAccount 0 TokenProgramID "" false 0))
                  (worldWith ∅))).
  left. reflexivity.
Defined.

(** C6. When the list of tokens is empty every mint is tracked.  When it is
    not empty and does not hold the mint of a record, [shouldTrackToken]
    rejects the record and every ingestion path discards it: the callback of
    a subscription returns with the world unchanged; a notification that
    decodes to the record leaves every map and the trace as they were; and
    the loop that bootstrap and poll run over the accounts of a wallet does
    on a list that holds the record exactly what it does on the list without
    it, in particular nothing on the record alone. *)
Theorem untracked_record_discarded `{ext : Externals} m account :
  tokens m ≠ [] →
  Mint account ∉ tokens m →
  (∀ m' mint, tokens m' = [] → shouldTrackToken m' mint = true) ∧
  shouldTrackToken m (Mint account) = false ∧
  (∀ w, walletCallback m account w = Some (tt, w)) ∧
  (∀ walletAddress res w w1,
     parseTokenAccountFromSubscription res walletAddress w
     = Some (Ok (Some account), w1) →
     deliver m walletAddress res w = Some (tt, w1) ∧
     heap w1 = heap w ∧ out w1 = out w) ∧
  (∀ w, trackAccounts m [account] w = Some (tt, w)) ∧
  (∀ before after w,
     trackAccounts m (before ++ account :: after) w
     = trackAccounts m (before ++ after) w).
Proof.
  intros Hne Hnotin.
  assert (Hrej : shouldTrackToken m (Mint account) = false).
  { apply not_true_is_false. rewrite shouldTrackToken_spec. by intros [?|?]. }
  split.
  { intros m' mint Hnil. apply shouldTrackToken_spec. by left. }
  split; [done|].
  assert (Hcb : ∀ w, walletCallback m account w = Some (tt, w)).
  { intros w. unfold walletCallback. by rewrite Hrej. }
  split; [done|]. split.
  { intros walletAddress res w w1 Hp. unfold deliver, programCallback.
    rewrite (bind_run _ _ _ _ _ Hp). split; [apply Hcb|].
    destruct (parseTokenAccountFromSubscription_cases res walletAddress w)
      as [Hp'|[[err Hp']|(ta & amount & account' & w1' & _ & _ & _ & _ & _ & _ & _ & Hh & Ho & Hp')]];
      rewrite Hp in Hp'; try done.
    injection Hp' as _ ->. done. }
  split.
  { intros w. simpl. by rewrite Hrej. }
  intros before after w. rewrite !trackAccounts_app. unfold bind.
  destruct (trackAccounts m before w) as [[[] w1]|]; [|done].
  simpl. by rewrite Hrej.
Qed.

Lemma untracked_record_discarded_witness :
  tokens (exampleMonitor ["W2"] ["mintX"]) ≠ [] ∧
  (Mint (exampleAccount "mintY" 100) ∉ tokens (exampleMonitor ["W2"] ["mintX"])) ∧
  shouldTrackToken (exampleMonitor ["W2"] ["mintX"]) (Mint (exampleAccount "mintY" 100))
  = false ∧
  ∀ w, trackAccounts (exampleMonitor ["W2"] ["mintX"]) [exampleAccount "mintY" 100] w
       = Some (tt, w).
Proof.
  assert (H1 : tokens (exampleMonitor ["W2"] ["mintX"]) ≠ []) by (simpl; discriminate).
  assert (H2 : Mint (exampleAccount "mintY" 100) ∉ tokens (exampleMonitor ["W2"] ["mintX"])).
  { simpl. intros Hin. apply list_elem_of_singleton in Hin. discriminate. }
  split; [exact H1|]. split; [exact H2|].
  pose proof (@untracked_record_discarded exampleNode
                (exampleMonitor ["W2"] ["mintX"]) (exampleAccount "mintY" 100) H1 H2)
    as (_ & Hrej & _ & _ & Hone & _).
  split; [exact Hrej|exact Hone].
Defined.

(** ** [GetCurrentState] *)

Lemma copyEntries_run stateCopy entries w copied :
  heap w !! stateCopy = Some copied →
  copyEntries stateCopy entries w
  = Some (tt, setHeap (<[stateCopy := foldl (λ acc kv, <[kv.1 := kv.2]> acc) copied entries]>
                         (heap w)) w).
Proof.
  revert w copied. induction entries as [|[k v] rest IH]; intros w copied Hc; simpl.
  - by rewrite insert_id, setHeap_id.
  - unfold bind, mapAssign. rewrite Hc.
    rewrite (IH _ (<[k := v]> copied)) by apply lookup_insert_eq.
    simpl. by rewrite insert_insert_eq.
Qed.

(** Assigning the entries of a map one by one rebuilds the map. *)
Lemma foldl_insert_entries (entries : list (string * TokenAccountInfo))
    (copied : gmap string TokenAccountInfo) :
  NoDup entries.*1 →
  foldl (λ acc kv, <[kv.1 := kv.2]> acc) copied entries
  = list_to_map entries ∪ copied.
Proof.
  revert copied. induction entries as [|[k v] rest IH]; intros copied Hnd; simpl.
  - by rewrite (left_id_L ∅ (∪)).
  - apply NoDup_cons in Hnd as [Hk Hnd]. rewrite IH by done.
    rewrite <- insert_union_l. apply symmetry, insert_union_r.
    by apply not_elem_of_list_to_map_1.
Qed.

(** On a monitor whose state map exists, [GetCurrentState] returns a new
    map with the entries of the state map and changes nothing else. *)
Lemma GetCurrentState_run m w st :
  store m w = Some st →
  GetCurrentState m w
  = Some (fresh (dom (heap w)),
          setHeap (<[fresh (dom (heap w)) := st]> (heap w)) w).
Proof.
  intros Hst. unfold GetCurrentState, bind at 1, mapMake.
  set (l := fresh (dom (heap w))).
  assert (Hl : l ≠ state m).
  { intros Heq. apply (is_fresh (dom (heap w))). fold l. rewrite Heq.
    apply elem_of_dom. by eexists. }
  unfold bind at 1, mapRead. simpl. rewrite lookup_insert_ne by done.
  unfold store in Hst. rewrite Hst. simpl. unfold bind.
  rewrite (copyEntries_run l (map_to_list st) _ ∅) by apply lookup_insert_eq.
  simpl. rewrite insert_insert_eq.
  rewrite foldl_insert_entries by apply NoDup_fst_map_to_list.
  by rewrite list_to_map_to_list, (right_id_L ∅ (∪)).
Qed.

Lemma mapAssign_frame l k v w w' l' :
  mapAssign l k v w = Some (tt, w') → l' ≠ l → heap w' !! l' = heap w !! l'.
Proof.
  unfold mapAssign. destruct (heap w !! l); [|done]. intros [= <-] Hne.
  simpl. by rewrite lookup_insert_ne.
Qed.

Lemma mapDelete_frame l k w w' l' :
  mapDelete l k w = Some (tt, w') → l' ≠ l → heap w' !! l' = heap w !! l'.
Proof.
  unfold mapDelete. destruct (heap w !! l); intros [= <-] Hne; [|done].
  simpl. by rewrite lookup_insert_ne.
Qed.

Lemma mapMake_frame w l w' l' :
  mapMake w = Some (l, w') → is_Some (heap w !! l') → heap w' !! l' = heap w !! l'.
Proof.
  unfold mapMake. intros [= <- <-] Hsome. simpl.
  apply lookup_insert_ne. intros Heq.
  apply (is_fresh (dom (heap w))). rewrite Heq. by apply elem_of_dom.
Qed.

(** On a nil state map the update panics at the assignment. *)
Lemma processAccountUpdate_nil m account w :
  store m w = None → processAccountUpdate m account w = None.
Proof.
  unfold store. intros Hnil.
  unfold processAccountUpdate, bind at 1, mapIndex, bind, mapRead, ret.
  rewrite Hnil. simpl. rewrite lookup_empty. simpl.
  unfold mapAssign. by rewrite Hnil.
Qed.

Section Copies.
Context `{ext : Externals}.

Lemma monitorSteps_frame m w w' l :
  is_Some (store m w) → rtc (monitorStep m) w w' → l ≠ state m →
  is_Some (store m w') ∧ heap w' !! l = heap w !! l.
Proof.
  intros Hsome Hsteps Hne. induction Hsteps as [w|w w1 w2 Hstep _ IH]; [done|].
  destruct Hsome as [st Hst].
  pose proof (monitorStep_ingests m w w1 st Hst Hstep) as Hin.
  destruct (IH (ingests_store m w w1 Hin)) as [Hsome2 Hframe].
  split; [done|]. rewrite Hframe. by apply (ingests_frame m w w1).
Qed.

(** C5. On a monitor whose state map exists, [GetCurrentState] returns a
    map that did not exist before, is not the state map, and holds the
    entries of the state map, which itself is as it was.  From then on the
    two are independent: whenever a caller assigns into the returned map or
    deletes from it, the state map is as before the write; and whenever the
    monitor updates its state map (one [processAccountUpdate], any sequence
    of its activities, or another [GetCurrentState]) the returned map is as
    before the update. *)
Theorem GetCurrentState_independent_copy m w st :
  store m w = Some st →
  ∃ l w',
    GetCurrentState m w = Some (l, w') ∧
    l ≠ state m ∧
    heap w !! l = None ∧
    heap w' !! l = Some st ∧
    store m w' = Some st ∧
    (∀ w1 k v w2, mapAssign l k v w1 = Some (tt, w2) → store m w2 = store m w1) ∧
    (∀ w1 k w2, mapDelete l k w1 = Some (tt, w2) → store m w2 = store m w1) ∧
    (∀ w1 account w2,
       processAccountUpdate m account w1 = Some (tt, w2) →
       heap w2 !! l = heap w1 !! l) ∧
    (∀ w1 w2,
       is_Some (store m w1) → rtc (monitorStep m) w1 w2 →
       heap w2 !! l = heap w1 !! l) ∧
    (∀ w1 l2 w2,
       is_Some (store m w1) → is_Some (heap w1 !! l) →
       GetCurrentState m w1 = Some (l2, w2) →
       l2 ≠ l ∧ heap w2 !! l = heap w1 !! l).
Proof.
  intros Hst. set (l := fresh (dom (heap w))).
  assert (Hfresh : heap w !! l = None) by apply not_elem_of_dom, is_fresh.
  assert (Hl : l ≠ state m).
  { intros Heq. unfold store in Hst. rewrite <- Heq in Hst. congruence. }
  exists l, (setHeap (<[l := st]> (heap w)) w).
  split; [by apply GetCurrentState_run|]. split; [done|]. split; [done|].
  split; [apply lookup_insert_eq|]. split.
  { unfold store; simpl. by rewrite lookup_insert_ne. }
  split.
  { intros w1 k v w2 Hrun. by apply (mapAssign_frame l k v w1 w2). }
  split.
  { intros w1 k w2 Hrun. by apply (mapDelete_frame l k w1 w2). }
  split.
  { intros w1 account w2 Hrun. destruct (store m w1) as [st1|] eqn:Hst1.
    - rewrite (processAccountUpdate_run m account w1 st1 Hst1) in Hrun.
      injection Hrun as <-. simpl. by rewrite lookup_insert_ne.
    - by rewrite (processAccountUpdate_nil m account w1 Hst1) in Hrun. }
  split.
  { intros w1 w2 Hsome Hsteps.
    by apply (monitorSteps_frame m w1 w2 l Hsome Hsteps). }
  intros w1 l2 w2 [st1 Hst1] Hsome Hrun.
  rewrite (GetCurrentState_run m w1 st1 Hst1) in Hrun. injection Hrun as <- <-.
  assert (Hne : fresh (dom (heap w1)) ≠ l).
  { intros Heq. apply (is_fresh (dom (heap w1))). rewrite Heq. by apply elem_of_dom. }
  split; [done|]. simpl. by rewrite lookup_insert_ne.
Qed.

End Copies.

Lemma GetCurrentState_independent_copy_witness :
  store (exampleMonitor ["W2"] []) (worldWith ∅) = Some ∅ ∧
  ∃ l w',
    @GetCurrentState (exampleMonitor ["W2"] []) (worldWith ∅) = Some (l, w') ∧
    l ≠ state (exampleMonitor ["W2"] []) ∧
    heap w' !! l = Some ∅ ∧
    store (exampleMonitor ["W2"] []) w' = Some ∅.
Proof.
  split; [reflexivity|].
  destruct (@GetCurrentState_independent_copy exampleNode
              (exampleMonitor ["W2"] []) (worldWith ∅) ∅ eq_refl)
    as (l & w' & Hrun & Hne & _ & Hcopy & Hstore & _).
  by exists l, w'.
Defined.

(** ** The invariant of the state map *)

Section Invariant.
Context `{ext : Externals}.

Lemma wellFiltered_new ws ts w0 m0 w1 hs :
  NewMonitor ws ts w0 = Some (m0, w1) →
  wellFiltered (foldl RegisterHandler m0 hs) (w1, dom (heap w0)).
Proof.
  rewrite NewMonitor_run. intros [= <- <-]. rewrite RegisterHandler_all.
  split; simpl.
  - apply is_fresh.
  - exists ∅. split; [apply lookup_insert_eq|]. intros k account.
    by rewrite lookup_empty.
Qed.

Lemma wellFiltered_step m c c' : wellFiltered m c → step m c c' → wellFiltered m c'.
Proof.
  intros [Hheld (st & Hst & Htr)] Hstep.
  destruct Hstep as [w held w' Hmon|w held l w' Hrun|w held l w' Hrun
                    |w held l k v w' Hl Hrun|w held l k w' Hl Hrun];
    unfold wellFiltered; simpl in *.
  - split; [done|].
    destruct (monitorStep_ingests m w w' st Hst Hmon)
      as (st0 & st' & es & Hst0 & Hheap & _ & _ & Hrec).
    rewrite Hst in Hst0. injection Hst0 as <-.
    exists st'. split; [unfold store; rewrite Hheap; apply lookup_insert_eq|].
    intros k account Hk. destruct (Hrec k account Hk) as [Hold|?]; [|done].
    by apply (Htr k).
  - rewrite (GetCurrentState_run m w st Hst) in Hrun. injection Hrun as <- <-.
    assert (Hne : fresh (dom (heap w)) ≠ state m).
    { intros Heq. apply (is_fresh (dom (heap w))). rewrite Heq.
      apply elem_of_dom. by eexists. }
    split.
    { apply not_elem_of_union. split; [|done].
      apply not_elem_of_singleton. by intros Heq. }
    exists st. split; [|done].
    unfold store; simpl. by rewrite lookup_insert_ne.
  - split.
    + injection Hrun as <- _.
      assert (Hne : fresh (dom (heap w)) ≠ state m).
      { intros Heq. apply (is_fresh (dom (heap w))). rewrite Heq.
        apply elem_of_dom. by eexists. }
      apply not_elem_of_union. split; [|done].
      apply not_elem_of_singleton. by intros Heq.
    + exists st. split; [|done]. unfold store.
      rewrite (mapMake_frame w l w' (state m) Hrun); [done|by eexists].
  - split; [done|]. exists st. split; [|done]. unfold store.
    rewrite (mapAssign_frame l k v w w' (state m) Hrun); [done|].
    intros Heq. by rewrite Heq in Hheld.
  - split; [done|]. exists st. split; [|done]. unfold store.
    rewrite (mapDelete_frame l k w w' (state m) Hrun); [done|].
    intros Heq. by rewrite Heq in Hheld.
Qed.

Lemma reachable_wellFiltered m c : reachable m c → wellFiltered m c.
Proof.
  induction 1 as [ws ts w0 m0 w1 hs Hnew ->|c c' _ IH Hstep].
  - by apply (wellFiltered_new ws ts).
  - by apply (wellFiltered_step m c c').
Qed.

(** C10. In every configuration a monitor built by [NewMonitor] reaches
    through [Start] (the bootstrap), its subscription tasks and callbacks,
    its poll ticks, calls of [GetCurrentState] and whatever the callers do
    with the maps they hold, the state map exists and every record in it
    has a mint the filter accepts: the list of tokens is empty or holds the
    mint.  [GetCurrentState] then returns a map with those same entries, so
    the same is true of every record it returns. *)
Theorem state_holds_tracked_mints_only m w held :
  reachable m (w, held) →
  ∃ st,
    store m w = Some st ∧
    (∀ k account, st !! k = Some account →
       (tokens m = [] ∨ Mint account ∈ tokens m) ∧
       shouldTrackToken m (Mint account) = true) ∧
    ∃ l w', GetCurrentState m w = Some (l, w') ∧ heap w' !! l = Some st.
Proof.
  intros Hreach.
  destruct (reachable_wellFiltered m (w, held) Hreach) as [_ (st & Hst & Htr)].
  simpl in *. exists st. split; [done|]. split.
  - intros k account Hk. split; [by apply (Htr k)|].
    apply shouldTrackToken_spec. by apply (Htr k).
  - eexists _, _. split; [by apply GetCurrentState_run|]. apply lookup_insert_eq.
Qed.

End Invariant.

Lemma state_holds_tracked_mints_only_witness :
  ∃ w st,
    @reachable exampleNode (foldl RegisterHandler (mkMonitor ["W2"] ["M1"] [] 0) [7])
      (w, dom (heap emptyWorld)) ∧
    store (foldl RegisterHandler (mkMonitor ["W2"] ["M1"] [] 0) [7]) w = Some st ∧
    st !! pairKey "W2" "M1" = Some (exampleAccount "M1" 100) ∧
    ∀ k account, st !! k = Some account →
      (tokens (foldl RegisterHandler (mkMonitor ["W2"] ["M1"] [] 0) [7]) = [] ∨
       Mint account ∈ tokens (foldl RegisterHandler (mkMonitor ["W2"] ["M1"] [] 0) [7])) ∧
      shouldTrackToken (foldl RegisterHandler (mkMonitor ["W2"] ["M1"] [] 0) [7])
        (Mint account) = true.
Proof.
  assert (Hnew : @reachable exampleNode
                   (foldl RegisterHandler (mkMonitor ["W2"] ["M1"] [] 0) [7])
                   (worldWith ∅, dom (heap emptyWorld))).
  { apply (@reachable_new exampleNode _ ["W2"] ["M1"] emptyWorld
             (mkMonitor ["W2"] ["M1"] [] 0) (worldWith ∅) [7]); reflexivity. }
  destruct (@Start exampleNode (foldl RegisterHandler (mkMonitor ["W2"] ["M1"] [] 0) [7])
              (worldWith ∅)) as [[r w]|] eqn:Hstart;
    [|vm_compute in Hstart; discriminate].
  assert (Hreach : @reachable exampleNode
                     (foldl RegisterHandler (mkMonitor ["W2"] ["M1"] [] 0) [7])
                     (w, dom (heap emptyWorld))).
  { apply (@reachable_step exampleNode _ _ _ Hnew).
    apply step_monitor. by apply (@step_start exampleNode _ _ r). }
  destruct (@state_holds_tracked_mints_only exampleNode _ _ _ Hreach)
    as (st & Hst & Htracked & _).
  exists w, st. split; [exact Hreach|]. split; [exact Hst|]. split; [|exact Htracked].
  vm_compute in Hstart. injection Hstart as _ <-.
  vm_compute in Hst. injection Hst as <-. reflexivity.
Defined.

(** ** The bootstrap *)

Section Bootstrap.
Context `{ext : Externals}.

Lemma GetTokenAccounts_quiet walletAddress w r w' :
  GetTokenAccounts walletAddress w = Some (r, w') → quiet w w'.
Proof.
  intros Hrun. destruct (GetTokenAccounts_run walletAddress w) as (r' & w'' & Hrun' & Hq & _).
  rewrite Hrun in Hrun'. by injection Hrun' as _ <-.
Qed.

Lemma trackAccounts_ingests_inv m accounts w st w' :
  store m w = Some st → trackAccounts m accounts w = Some (tt, w') → ingests m w w'.
Proof.
  intros Hst Hrun. destruct (trackAccounts_ingests m accounts w st Hst) as (w'' & Hrun' & Hin).
  rewrite Hrun in Hrun'. by injection Hrun' as <-.
Qed.

Lemma updateInitialStateFrom_ingests_inv m ws w st r w' :
  store m w = Some st → updateInitialStateFrom m ws w = Some (r, w') → ingests m w w'.
Proof.
  intros Hst Hrun.
  destruct (updateInitialStateFrom_ingests m ws w st Hst) as (r' & w'' & Hrun' & Hin).
  rewrite Hrun in Hrun'. by injection Hrun' as _ <-.
Qed.

(** What [Start] adds to the bootstrap: nothing when it failed, the
    background tasks when it succeeded. *)
Lemma Start_run m w r w' :
  updateInitialStateFrom m (wallets m) w = Some (r, w') →
  Start m w
  = Some (r, addOut (match r with
                     | Some _ => []
                     | None => map GoSubscribe (wallets m) ++ [GoPolling]
                     end) w').
Proof.
  intros Hrun. unfold Start, updateInitialState.
  rewrite (bind_run _ _ _ _ _ Hrun). destruct r as [err|].
  - by rewrite addOut_nil.
  - unfold bind at 1. rewrite goSubscribeAll_run. unfold bind, emit, ret.
    by rewrite addOut_addOut.
Qed.

(** A tracked account of a fetched list has a record under its key once the
    list has been applied. *)
Lemma trackAccounts_present m accounts w st account :
  store m w = Some st →
  account ∈ accounts →
  tracked m (Mint account) →
  ∃ w' st', trackAccounts m accounts w = Some (tt, w') ∧
            store m w' = Some st' ∧ stateKey account ∈ dom st'.
Proof.
  intros Hst Hin Htr. apply list_elem_of_split in Hin as (l1 & l2 & ->).
  destruct (trackAccounts_ingests m l1 w st Hst) as (w1 & Hrun1 & Hin1).
  destruct (ingests_store m w w1 Hin1) as [st1 Hst1].
  destruct (processAccountUpdate_ingests m account w1 st1 Hst1 Htr)
    as (w2 & Hrun2 & Hin2 & Hst2).
  destruct (trackAccounts_ingests m l2 w2 _ Hst2) as (w3 & Hrun3 & Hin3).
  destruct (ingests_store m w2 w3 Hin3) as [st3 Hst3].
  exists w3, st3. split.
  - rewrite trackAccounts_app. rewrite (bind_run _ _ _ _ _ Hrun1). simpl.
    apply shouldTrackToken_spec in Htr. rewrite Htr.
    by rewrite (bind_run _ _ _ _ _ Hrun2).
  - split; [done|]. apply (ingests_dom m w2 w3 _ st3 Hin3 Hst2 Hst3).
    rewrite dom_insert_L. set_solver.
Qed.

(** C3, as the code has it.  Let the fetch of a wallet fail during the
    bootstrap after the wallets before it, in the configured order, were
    fetched.  Then [Start] returns that error at once: the world is the one
    the failing fetch left, so the wallets after it are not fetched and no
    background task is started.  The state map is as the earlier wallets
    left it: every tracked account that the fetch of an earlier wallet
    returned has a record under its key, and [GetCurrentState] returns a map
    with these entries. *)
Theorem Start_stops_at_first_failure m w st before wallet after w1 err w2 :
  store m w = Some st →
  wallets m = before ++ wallet :: after →
  updateInitialStateFrom m before w = Some (None, w1) →
  GetTokenAccounts wallet w1 = Some (Err err, w2) →
  Start m w = Some (Some err, w2) ∧
  ∃ st2,
    store m w2 = Some st2 ∧ store m w1 = Some st2 ∧
    (∃ l w3, GetCurrentState m w2 = Some (l, w3) ∧ heap w3 !! l = Some st2) ∧
    ∀ earlier fetched later wa accounts wb account,
      before = earlier ++ fetched :: later →
      updateInitialStateFrom m earlier w = Some (None, wa) →
      GetTokenAccounts fetched wa = Some (Ok accounts, wb) →
      account ∈ accounts →
      tracked m (Mint account) →
      is_Some (st2 !! stateKey account).
Proof.
  intros Hst Hws Hbefore Hfail.
  assert (Hboot : updateInitialStateFrom m (wallets m) w = Some (Some err, w2)).
  { rewrite Hws, (updateInitialStateFrom_app m before _ w w1 Hbefore). simpl.
    by rewrite (bind_run _ _ _ _ _ Hfail). }
  split; [by rewrite (Start_run m w _ _ Hboot), addOut_nil|].
  pose proof (updateInitialStateFrom_ingests_inv m before w st None w1 Hst Hbefore) as Hin1.
  destruct (ingests_store m w w1 Hin1) as [st2 Hst1].
  destruct (GetTokenAccounts_quiet wallet w1 _ w2 Hfail) as [Hheap _].
  assert (Hst2 : store m w2 = Some st2) by (unfold store; by rewrite Hheap).
  exists st2. split; [done|]. split; [done|]. split.
  { eexists _, _. split; [by apply GetCurrentState_run|]. apply lookup_insert_eq. }
  intros earlier fetched later wa accounts wb account -> Hearlier Hget Hin Htr.
  rewrite (updateInitialStateFrom_app m earlier _ w wa Hearlier) in Hbefore.
  simpl in Hbefore. rewrite (bind_run _ _ _ _ _ Hget) in Hbefore.
  pose proof (updateInitialStateFrom_ingests_inv m earlier w st None wa Hst Hearlier) as Hina.
  destruct (ingests_store m w wa Hina) as [sta Hsta].
  destruct (GetTokenAccounts_quiet fetched wa _ wb Hget) as [Hheapb _].
  assert (Hstb : store m wb = Some sta) by (unfold store; by rewrite Hheapb).
  destruct (trackAccounts_present m accounts wb sta account Hstb Hin Htr)
    as (wc & stc & Htrack & Hstc & Hdom).
  rewrite (bind_run _ _ _ _ _ Htrack) in Hbefore.
  pose proof (updateInitialStateFrom_ingests_inv m later wc stc None w1 Hstc Hbefore) as Hinc.
  apply elem_of_dom. by apply (ingests_dom m wc w1 stc st2 Hinc Hstc Hst1).
Qed.

(** C8. During the bootstrap of [Start], take any account that the fetch of
    a wallet returned, whose mint is tracked and whose key has no record in
    the state map when its turn comes (after the wallets before it and the
    accounts before it in its list were applied).  Then [Start] returns and
    its trace holds the dispatch of that account: the log line of the change
    and one goroutine per registered handler.  Nothing is suppressed for
    being a first sight at startup. *)
Theorem bootstrap_notifies_first_seen m w st before wallet after w1
    seen account unseen w2 w3 st3 :
  store m w = Some st →
  wallets m = before ++ wallet :: after →
  updateInitialStateFrom m before w = Some (None, w1) →
  GetTokenAccounts wallet w1 = Some (Ok (seen ++ account :: unseen), w2) →
  trackAccounts m seen w2 = Some (tt, w3) →
  store m w3 = Some st3 →
  st3 !! stateKey account = None →
  shouldTrackToken m (Mint account) = true →
  balanceDiffers st3 account = true ∧
  ∃ r w' earlier later,
    Start m w = Some (r, w') ∧
    out w' = out w ++ earlier ++ dispatch m account ++ later.
Proof.
  intros Hst Hws Hbefore Hget Hseen Hst3 Hnew Htr.
  assert (Hdiff : balanceDiffers st3 account = true).
  { unfold balanceDiffers. by rewrite Hnew. }
  split; [done|].
  pose proof (updateInitialStateFrom_ingests_inv m before w st None w1 Hst Hbefore) as Hin1.
  destruct (ingests_out m w w1 Hin1) as [e1 Ho1].
  destruct (GetTokenAccounts_quiet wallet w1 _ w2 Hget) as [Hheap2 [e2 Ho2]].
  destruct (ingests_store m w w1 Hin1) as [st1 Hst1].
  assert (Hst2 : store m w2 = Some st1) by (unfold store; by rewrite Hheap2).
  destruct (ingests_out m w2 w3 (trackAccounts_ingests_inv m seen w2 st1 w3 Hst2 Hseen))
    as [e3 Ho3].
  pose proof (processAccountUpdate_run m account w3 st3 Hst3) as Hrun4.
  rewrite Hdiff in Hrun4. set (w4 := addOut (dispatch m account) _) in Hrun4.
  assert (Hst4 : store m w4 = Some (<[stateKey account := account]> st3))
    by apply lookup_insert_eq.
  destruct (trackAccounts_ingests m unseen w4 _ Hst4) as (w5 & Hrun5 & Hin5).
  destruct (ingests_out m w4 w5 Hin5) as [e5 Ho5].
  destruct (ingests_store m w4 w5 Hin5) as [st5 Hst5].
  destruct (updateInitialStateFrom_ingests m after w5 st5 Hst5) as (r & w6 & Hrun6 & Hin6).
  destruct (ingests_out m w5 w6 Hin6) as [e6 Ho6].
  assert (Hboot : updateInitialStateFrom m (wallets m) w = Some (r, w6)).
  { rewrite Hws, (updateInitialStateFrom_app m before _ w w1 Hbefore). simpl.
    rewrite (bind_run _ _ _ _ _ Hget).
    assert (Htrack : trackAccounts m (seen ++ account :: unseen) w2 = Some (tt, w5)).
    { rewrite trackAccounts_app, (bind_run _ _ _ _ _ Hseen). simpl. rewrite Htr.
      by rewrite (bind_run _ _ _ _ _ Hrun4). }
    by rewrite (bind_run _ _ _ _ _ Htrack). }
  eexists r, _, (e1 ++ e2 ++ e3), (e5 ++ e6 ++ _).
  split; [by apply Start_run|].
  simpl. rewrite Ho6, Ho5. unfold w4 at 1. simpl. rewrite Ho3, Ho2, Ho1.
  by rewrite <- !app_assoc.
Qed.

End Bootstrap.

Lemma Start_stops_at_first_failure_witness :
  ∃ err w2 st2,
    @Start exampleNode (exampleMonitor ["W2"; "W1"; "W3"] []) (worldWith ∅)
    = Some (Some err, w2) ∧
    store (exampleMonitor ["W2"; "W1"; "W3"] []) w2 = Some st2 ∧
    is_Some (st2 !! pairKey "W2" "M1") ∧
    st2 !! pairKey "W3" "M1" = None.
Proof.
  destruct (@updateInitialStateFrom exampleNode (exampleMonitor ["W2"; "W1"; "W3"] [])
              ["W2"] (worldWith ∅)) as [[r w1]|] eqn:Hbefore;
    [|vm_compute in Hbefore; discriminate].
  assert (Hr : r = None) by (vm_compute in Hbefore; congruence). subst r.
  destruct (@GetTokenAccounts exampleNode "W1" w1) as [[r w2]|] eqn:Hfail;
    [|vm_compute in Hfail; discriminate].
  assert (Hr : r = Err ErrGetTokenAccounts) by (vm_compute in Hfail; congruence).
  subst r.
  destruct (@Start_stops_at_first_failure exampleNode
              (exampleMonitor ["W2"; "W1"; "W3"] []) (worldWith ∅) ∅
              ["W2"] "W1" ["W3"] w1 ErrGetTokenAccounts w2
              eq_refl eq_refl Hbefore Hfail)
    as (Hstart & st2 & Hst2 & Hst1 & _ & Hpresent).
  exists ErrGetTokenAccounts, w2, st2. split; [exact Hstart|]. split; [exact Hst2|].
  split.
  - apply (Hpresent [] "W2" [] (worldWith ∅)
             [mkTokenAccountInfo "acc1" "W2" "M1" 100 6 "spl" 0]
             (mkWorld {[0 := ∅]} 1 1 0 [] [])
             (mkTokenAccountInfo "acc1" "W2" "M1" 100 6 "spl" 0)).
    + reflexivity.
    + reflexivity.
    + reflexivity.
    + apply list_elem_of_singleton. reflexivity.
    + left. reflexivity.
  - vm_compute in Hbefore. injection Hbefore as <-.
    vm_compute in Hst1. injection Hst1 as <-. reflexivity.
Defined.

(** C3, as the claim states it, fails.  The wallets are [W1; W2]; the node
    refuses [W1] and answers every request for [W2] with one account.
    [Start] returns the error after a single request: [W2] is never fetched
    and [GetCurrentState] returns an empty map. *)
Lemma Start_abandons_later_wallets :
  (∃ w1, @GetTokenAccounts exampleNode "W1" (worldWith ∅)
         = Some (Err ErrGetTokenAccounts, w1)) ∧
  (∀ w, ∃ account w',
     @GetTokenAccounts exampleNode "W2" w = Some (Ok [account], w') ∧
     Owner account = "W2" ∧ Mint account = "M1") ∧
  ∃ w' l w'',
    @Start exampleNode (exampleMonitor ["W1"; "W2"] []) (worldWith ∅)
    = Some (Some ErrGetTokenAccounts, w') ∧
    rpcCalls w' = 1 ∧
    GetCurrentState (exampleMonitor ["W1"; "W2"] []) w' = Some (l, w'') ∧
    heap w'' !! l = Some ∅.
Proof.
  split; [by eexists|]. split.
  - intros w. by eexists _, _.
  - eexists _, _, _. split; [reflexivity|]. split; [reflexivity|].
    split; [by apply (GetCurrentState_run _ _ ∅)|]. apply lookup_insert_eq.
Qed.

Lemma bootstrap_notifies_first_seen_witness :
  ∃ r w' earlier later,
    @Start exampleNode (exampleMonitor ["W2"] ["M1"]) (worldWith ∅) = Some (r, w') ∧
    out w' = out (worldWith ∅) ++ earlier
             ++ dispatch (exampleMonitor ["W2"] ["M1"])
                  (mkTokenAccountInfo "acc1" "W2" "M1" 100 6 "spl" 0)
             ++ later.
Proof.
  apply (@bootstrap_notifies_first_seen exampleNode
           (exampleMonitor ["W2"] ["M1"]) (worldWith ∅) ∅
           [] "W2" [] (worldWith ∅)
           [] (mkTokenAccountInfo "acc1" "W2" "M1" 100 6 "spl" 0) []
           (mkWorld {[0 := ∅]} 1 1 0 [] []) (mkWorld {[0 := ∅]} 1 1 0 [] []) ∅);
    reflexivity.
Defined.

(** * Further properties of the code *)

(** ** The update path on lists *)

Lemma processAll_ingests m updates w st :
  store m w = Some st →
  ∃ w' st', processAll m updates w = Some (tt, w') ∧ store m w' = Some st' ∧
            (∀ k, (∀ u, u ∈ updates → stateKey u ≠ k) → st' !! k = st !! k) ∧
            ∃ events, out w' = out w ++ events.
Proof.
  revert w st. induction updates as [|u us IH]; intros w st Hst; simpl.
  - exists w, st. split; [done|]. split; [done|]. split; [done|].
    exists []. by rewrite app_nil_r.
  - rewrite (bind_run _ _ _ _ _ (processAccountUpdate_run m u w st Hst)).
    set (w1 := addOut _ _).
    destruct (IH w1 (<[stateKey u := u]> st)) as (w' & st' & Hrun & Hst' & Hframe & es & Hout).
    { apply lookup_insert_eq. }
    exists w', st'. split; [done|]. split; [done|]. split.
    + intros k Hk. rewrite Hframe.
      * apply lookup_insert_ne, Hk. by left.
      * intros u' Hu'. apply Hk. by right.
    + eexists. rewrite Hout. unfold w1; simpl. by rewrite <- app_assoc.
Qed.

(** An update that brings the record already stored changes nothing. *)
Lemma processAccountUpdate_same m account w st :
  store m w = Some st →
  st !! stateKey account = Some account →
  processAccountUpdate m account w = Some (tt, w).
Proof.
  intros Hst Hsame. rewrite (processAccountUpdate_run m account w st Hst).
  unfold balanceDiffers. rewrite Hsame, Z.eqb_refl. simpl.
  rewrite addOut_nil, (insert_id st) by done.
  unfold store in Hst. rewrite insert_id by done. by rewrite setHeap_id.
Qed.

Lemma processAll_same m updates w st :
  store m w = Some st →
  (∀ u, u ∈ updates → st !! stateKey u = Some u) →
  processAll m updates w = Some (tt, w).
Proof.
  intros Hst. induction updates as [|u us IH]; intros Hall; simpl; [done|].
  rewrite (bind_run _ _ _ _ _ (processAccountUpdate_same m u w st Hst
             (Hall u ltac:(by left)))).
  apply IH. intros u' Hu'. apply Hall. by right.
Qed.

(** After a pass over updates of pairwise distinct keys, each update is the
    record stored under its key. *)
Lemma processAll_stored m updates w st :
  store m w = Some st →
  NoDup (stateKey <$> updates) →
  ∃ w' st', processAll m updates w = Some (tt, w') ∧ store m w' = Some st' ∧
            ∀ u, u ∈ updates → st' !! stateKey u = Some u.
Proof.
  revert w st. induction updates as [|u us IH]; intros w st Hst Hnd; simpl.
  - exists w, st. split; [done|]. split; [done|]. by intros u ?%elem_of_nil.
  - apply NoDup_cons in Hnd as [Hu Hnd].
    rewrite (bind_run _ _ _ _ _ (processAccountUpdate_run m u w st Hst)).
    set (w1 := addOut _ _).
    assert (Hst1 : store m w1 = Some (<[stateKey u := u]> st)) by apply lookup_insert_eq.
    destruct (IH w1 _ Hst1 Hnd) as (w' & st' & Hrun & Hst' & Hall).
    exists w', st'. split; [done|]. split; [done|].
    intros u' [->|Hin]%elem_of_cons; [|by apply Hall].
    destruct (processAll_ingests m us w1 _ Hst1) as (w'' & st'' & Hrun' & Hst'' & Hframe & _).
    rewrite Hrun in Hrun'. injection Hrun' as <-. rewrite Hst' in Hst''.
    injection Hst'' as <-. rewrite Hframe; [apply lookup_insert_eq|].
    intros u'' Hu'' Heq. apply Hu. rewrite <- Heq. by apply list_elem_of_fmap_2.
Qed.

Lemma trackAccounts_processAll m accounts w :
  trackAccounts m accounts w = processAll m (trackedAccounts m accounts) w.
Proof.
  revert w. induction accounts as [|a rest IH]; intros w; simpl; [done|].
  unfold trackedAccounts. rewrite filter_cons.
  destruct (shouldTrackToken m (Mint a)) eqn:Htr.
  - rewrite decide_True by done. simpl. unfold bind.
    destruct (processAccountUpdate m a w) as [[[] w1]|]; [|done]. apply IH.
  - rewrite decide_False by done. unfold bind, ret. apply IH.
Qed.

(** X1. The loop that bootstrap and poll run over the accounts of a wallet
    is the update path applied, in order, to the accounts the filter lets
    through: those of the list whose mint is in the list of tokens, or all
    of them when that list is empty. *)
Theorem trackAccounts_applies_tracked m accounts w :
  trackAccounts m accounts w = processAll m (trackedAccounts m accounts) w ∧
  trackedAccounts m accounts `sublist_of` accounts ∧
  ∀ account, account ∈ trackedAccounts m accounts ↔
             account ∈ accounts ∧ (tokens m = [] ∨ Mint account ∈ tokens m).
Proof.
  split; [apply trackAccounts_processAll|]. split; [apply sublist_filter|].
  intros account. unfold trackedAccounts. rewrite list_elem_of_filter.
  rewrite shouldTrackToken_spec. unfold tracked. tauto.
Qed.

(** X2. When the tracked accounts of a fetched list have pairwise distinct
    keys, applying the list a second time changes nothing: the second pass
    returns the world the first one left, so it sends no notification. *)
Theorem trackAccounts_second_pass_silent m accounts w st :
  store m w = Some st →
  NoDup (stateKey <$> trackedAccounts m accounts) →
  ∃ w1, trackAccounts m accounts w = Some (tt, w1) ∧
        trackAccounts m accounts w1 = Some (tt, w1).
Proof.
  intros Hst Hnd.
  destruct (processAll_stored m (trackedAccounts m accounts) w st Hst Hnd)
    as (w1 & st1 & Hrun & Hst1 & Hall).
  exists w1. rewrite !trackAccounts_processAll. split; [done|].
  by apply (processAll_same m _ w1 st1).
Qed.

Lemma trackAccounts_second_pass_silent_witness :
  ∃ w1,
    trackAccounts (exampleMonitor ["W2"] ["M1"; "M2"])
      [exampleAccount "M1" 100; exampleAccount "M3" 1; exampleAccount "M2" 5]
      (worldWith ∅) = Some (tt, w1) ∧
    trackAccounts (exampleMonitor ["W2"] ["M1"; "M2"])
      [exampleAccount "M1" 100; exampleAccount "M3" 1; exampleAccount "M2" 5]
      w1 = Some (tt, w1).
Proof.
  apply (trackAccounts_second_pass_silent (exampleMonitor ["W2"] ["M1"; "M2"])
           [exampleAccount "M1" 100; exampleAccount "M3" 1; exampleAccount "M2" 5]
           (worldWith ∅) ∅).
  - reflexivity.
  - vm_compute. apply NoDup_cons. split.
    + intros Hin. apply list_elem_of_singleton in Hin. discriminate.
    + apply NoDup_singleton.
Defined.

(** X3. When a fetched list holds two tracked accounts of one key with
    different balances, and no tracked account of that key between them,
    every pass over the list notifies a change for the later one, whatever
    the state map held. *)
Theorem trackAccounts_same_key_flips m l1 a l2 b l3 w st :
  store m w = Some st →
  shouldTrackToken m (Mint a) = true →
  shouldTrackToken m (Mint b) = true →
  stateKey a = stateKey b →
  Balance a ≠ Balance b →
  (∀ c, c ∈ l2 → shouldTrackToken m (Mint c) = true → stateKey c ≠ stateKey a) →
  ∃ w' earlier later,
    trackAccounts m (l1 ++ a :: l2 ++ b :: l3) w = Some (tt, w') ∧
    out w' = out w ++ earlier ++ dispatch m b ++ later.
Proof.
  intros Hst Hta Htb Hkey Hbal Hbetween.
  destruct (trackAccounts_ingests m l1 w st Hst) as (w1 & Hrun1 & Hin1).
  destruct (ingests_store m w w1 Hin1) as [st1 Hst1].
  destruct (ingests_out m w w1 Hin1) as [e1 Ho1].
  pose proof (processAccountUpdate_run m a w1 st1 Hst1) as Hrun2.
  set (w2 := addOut _ _) in Hrun2.
  assert (Hst2 : store m w2 = Some (<[stateKey a := a]> st1)) by apply lookup_insert_eq.
  destruct (processAll_ingests m (trackedAccounts m l2) w2 _ Hst2)
    as (w3 & st3 & Hrun3 & Hst3 & Hframe & e3 & Ho3).
  assert (Hst3a : st3 !! stateKey b = Some a).
  { rewrite <- Hkey, Hframe; [apply lookup_insert_eq|].
    intros c Hc. unfold trackedAccounts in Hc.
    apply list_elem_of_filter in Hc as [Htc Hc]. by apply Hbetween. }
  pose proof (processAccountUpdate_run m b w3 st3 Hst3) as Hrun4.
  assert (Hdiff : balanceDiffers st3 b = true).
  { unfold balanceDiffers. rewrite Hst3a. apply negb_true_iff. by apply Z.eqb_neq. }
  rewrite Hdiff in Hrun4. set (w4 := addOut _ _) in Hrun4.
  assert (Hst4 : store m w4 = Some (<[stateKey b := b]> st3)) by apply lookup_insert_eq.
  destruct (trackAccounts_ingests m l3 w4 _ Hst4) as (w5 & Hrun5 & Hin5).
  destruct (ingests_out m w4 w5 Hin5) as [e5 Ho5].
  exists w5, (e1 ++ (if balanceDiffers st1 a then dispatch m a else []) ++ e3), e5.
  split.
  - rewrite trackAccounts_app, (bind_run _ _ _ _ _ Hrun1). simpl. rewrite Hta.
    rewrite (bind_run _ _ _ _ _ Hrun2).
    rewrite trackAccounts_app.
    rewrite (bind_run (trackAccounts m l2) _ w2 tt w3)
      by (by rewrite trackAccounts_processAll).
    simpl. rewrite Htb. by rewrite (bind_run _ _ _ _ _ Hrun4).
  - rewrite Ho5. unfold w4 at 1. simpl. rewrite Ho3. unfold w2 at 1. simpl.
    rewrite Ho1. by rewrite <- !app_assoc.
Qed.

Lemma trackAccounts_same_key_flips_witness :
  ∃ w' earlier later,
    trackAccounts (exampleMonitor ["W2"] [])
      ([] ++ exampleAccount "M1" 100 :: [exampleAccount "M2" 5]
          ++ exampleAccount "M1" 30 :: [])
      (worldWith {[ pairKey "W2" "M1" := exampleAccount "M1" 30 ]}) = Some (tt, w') ∧
    out w' = out (worldWith {[ pairKey "W2" "M1" := exampleAccount "M1" 30 ]})
             ++ earlier ++ dispatch (exampleMonitor ["W2"] []) (exampleAccount "M1" 30)
             ++ later.
Proof.
  apply (trackAccounts_same_key_flips (exampleMonitor ["W2"] [])
           [] (exampleAccount "M1" 100) [exampleAccount "M2" 5]
           (exampleAccount "M1" 30) []
           (worldWith {[ pairKey "W2" "M1" := exampleAccount "M1" 30 ]})
           {[ pairKey "W2" "M1" := exampleAccount "M1" 30 ]}).
  - reflexivity.
  - reflexivity.
  - reflexivity.
  - reflexivity.
  - simpl. lia.
  - intros c Hc _. apply list_elem_of_singleton in Hc. subst c. discriminate.
Defined.

(** ** The snapshot fetch in detail *)

Section Snapshot.
Context `{ext : Externals}.

Lemma tokenInfos_shape walletAddress items accounts w :
  ∃ news,
    tokenInfos walletAddress items accounts w
    = Some (accounts ++ news,
            mkWorld (heap w) (rpcCalls w) (length news + clockReads w) (wsCalls w)
                    (subscriptions w)
                    (out w ++ map LogWarnParseData (unparsedItems items))) ∧
    (λ a, (Address a, Mint a, Balance a, Decimals a, ProgramID a)) <$> news
    = (λ p, (p.1, pta_Mint p.2, uint64 (pta_Amount p.2),
            uint8 (pta_Decimals p.2), pta_Program p.2)) <$> parsedItems items ∧
    Forall (λ a, Owner a = walletAddress) news ∧
    LastUpdatedAt <$> news = timeNow <$> seq (clockReads w) (length news).
Proof.
  revert accounts w. induction items as [|item rest IH]; intros accounts w.
  - exists []. simpl. rewrite !app_nil_r. split; [by destruct w|]. done.
  - simpl. unfold parsedItems, unparsedItems. simpl.
    destruct (item_Parsed item) as [info|]; simpl.
    + unfold bind at 1, now.
      set (w1 := mkWorld _ _ _ _ _ _). set (tokenInfo := mkTokenAccountInfo _ _ _ _ _ _ _).
      destruct (IH (accounts ++ [tokenInfo]) w1) as (news & Hrun & Hfields & Hown & Htimes).
      exists (tokenInfo :: news). split.
      { rewrite Hrun. unfold w1; simpl. rewrite <- app_assoc. simpl.
        by rewrite Nat.add_succ_r. }
      split; [rewrite fmap_cons, Hfields; reflexivity|]. split; [by constructor|].
      rewrite fmap_cons, Htimes. reflexivity.
    + unfold bind at 1, emit.
      destruct (IH accounts (addOut [LogWarnParseData (item_Pubkey item)] w))
        as (news & Hrun & Hfields & Hown & Htimes).
      exists news. split; [|done].
      rewrite Hrun. simpl. by rewrite <- app_assoc.
Qed.

Lemma uint64_range z : (0 ≤ uint64 z < 2 ^ 64)%Z.
Proof. unfold uint64. apply Z.mod_pos_bound. lia. Qed.

Lemma uint8_range z : (0 ≤ uint8 z < 2 ^ 8)%Z.
Proof. unfold uint8. apply Z.mod_pos_bound. lia. Qed.

(** X4. A successful [GetTokenAccounts] made exactly one request to the
    node, for an address that decodes.  It returns one account per item of
    the answer that carries parsed token data, in the order of the answer:
    address, mint and program are those of the item, balance and decimals
    are its amount and decimals reduced to 64 and 8 bits, the owner is the
    wallet asked for, and the times are consecutive readings of the clock.
    Every other item is skipped with one warning; no map is touched. *)
Theorem GetTokenAccounts_snapshot walletAddress w accounts w' :
  GetTokenAccounts walletAddress w = Some (Ok accounts, w') →
  PublicKeyFromBase58 walletAddress = true ∧
  ∃ items,
    rpcGetTokenAccountsByOwner (rpcCalls w) walletAddress = Some items ∧
    (λ a, (Address a, Mint a, Balance a, Decimals a, ProgramID a)) <$> accounts
    = (λ p, (p.1, pta_Mint p.2, uint64 (pta_Amount p.2),
            uint8 (pta_Decimals p.2), pta_Program p.2)) <$> parsedItems items ∧
    Forall (λ a, Owner a = walletAddress ∧
                 (0 ≤ Balance a < 2 ^ 64)%Z ∧ (0 ≤ Decimals a < 2 ^ 8)%Z) accounts ∧
    LastUpdatedAt <$> accounts = timeNow <$> seq (clockReads w) (length accounts) ∧
    w' = addOut (map LogWarnParseData (unparsedItems items))
           (afterFetch (length accounts) w).
Proof.
  unfold GetTokenAccounts. destruct (PublicKeyFromBase58 walletAddress); simpl; [|done].
  unfold bind at 1, rpcRequest.
  destruct (rpcGetTokenAccountsByOwner (rpcCalls w) walletAddress) as [items|]; [|done].
  set (w1 := mkWorld _ _ _ _ _ _).
  destruct (tokenInfos_shape walletAddress items [] w1) as (news & Hrun & Hfields & Hown & Htimes).
  rewrite (bind_run _ _ _ _ _ Hrun). simpl. intros [= <- <-].
  split; [done|]. exists items. split; [done|]. split; [done|]. split.
  - apply Forall_forall. intros a Ha. split; [by apply (proj1 (Forall_forall _ _) Hown)|].
    apply (list_elem_of_fmap_2 (λ a, (Address a, Mint a, Balance a, Decimals a, ProgramID a)))
      in Ha.
    rewrite Hfields in Ha. apply list_elem_of_fmap in Ha as ([pk info] & Heq & _).
    injection Heq as _ _ -> -> _. split; [apply uint64_range|apply uint8_range].
  - done.
Qed.

(** X5. [GetTokenAccounts] fails in two ways only.  For an address that does
    not decode it makes no request and leaves the world as it was; for an
    address that decodes it fails when the node answers the request with an
    error, and then nothing but the request happened: no map changed, no
    clock reading, no log line. *)
Theorem GetTokenAccounts_failure walletAddress w err w' :
  GetTokenAccounts walletAddress w = Some (Err err, w') →
  (PublicKeyFromBase58 walletAddress = false ∧
   err = ErrInvalidWalletAddress ∧ w' = w) ∨
  (PublicKeyFromBase58 walletAddress = true ∧
   rpcGetTokenAccountsByOwner (rpcCalls w) walletAddress = None ∧
   err = ErrGetTokenAccounts ∧ w' = afterFetch 0 w).
Proof.
  unfold GetTokenAccounts. destruct (PublicKeyFromBase58 walletAddress); simpl.
  - unfold bind at 1, rpcRequest.
    destruct (rpcGetTokenAccountsByOwner (rpcCalls w) walletAddress) as [items|].
    + destruct (tokenInfos_shape walletAddress items []
                  (mkWorld (heap w) (S (rpcCalls w)) (clockReads w) (wsCalls w)
                     (subscriptions w) (out w))) as (news & Hrun & _).
      by rewrite (bind_run _ _ _ _ _ Hrun).
    + intros [= <- <-]. right. done.
  - intros [= <- <-]. by left.
Qed.

End Snapshot.

Lemma GetTokenAccounts_snapshot_witness :
  ∃ w',
    @GetTokenAccounts exampleNode "W2" emptyWorld
    = Some (Ok [mkTokenAccountInfo "acc1" "W2" "M1" 100 6 "spl" 0], w') ∧
    w' = addOut (map LogWarnParseData []) (afterFetch 1 emptyWorld).
Proof.
  eexists. split; [reflexivity|].
  destruct (@GetTokenAccounts_snapshot exampleNode "W2" emptyWorld
              [mkTokenAccountInfo "acc1" "W2" "M1" 100 6 "spl" 0] _ eq_refl)
    as (_ & items & Hrpc & _ & _ & _ & Hw).
  injection Hrpc as <-. exact Hw.
Defined.

Lemma GetTokenAccounts_failure_witness :
  @GetTokenAccounts exampleNode "bad" emptyWorld
  = Some (Err ErrInvalidWalletAddress, emptyWorld) ∧
  ((@PublicKeyFromBase58 exampleNode "bad" = false ∧
    ErrInvalidWalletAddress = ErrInvalidWalletAddress ∧ emptyWorld = emptyWorld) ∨
   (@PublicKeyFromBase58 exampleNode "bad" = true ∧
    @rpcGetTokenAccountsByOwner exampleNode (rpcCalls emptyWorld) "bad" = None ∧
    ErrInvalidWalletAddress = ErrGetTokenAccounts ∧ emptyWorld = afterFetch 0 emptyWorld)).
Proof.
  split; [reflexivity|].
  exact (@GetTokenAccounts_failure exampleNode "bad" emptyWorld
           ErrInvalidWalletAddress emptyWorld eq_refl).
Defined.

(** ** Notifications of the websocket in detail *)

Section Push.
Context `{ext : Externals}.

(** X6. When [parseTokenAccountFromSubscription] returns a record, the
    notification is one of the token program, its account decoded, the
    decoded owner is the wallet asked for and the amount parsed.  The record
    has the public key of the notification as address, that wallet as
    owner, the decoded mint and decimals, the amount reduced to 64 bits as
    balance, an empty program id, and the one reading of the clock that was
    made as time; nothing else happened. *)
Theorem parseTokenAccountFromSubscription_record notification walletAddress w account w' :
  parseTokenAccountFromSubscription notification walletAddress w
  = Some (Ok (Some account), w') →
  acc_Owner (Value_Account notification) = TokenProgramID ∧
  ∃ tokenAccount amount,
    decodeAccount (Value_Account notification) = Some tokenAccount ∧
    ta_Info_Owner tokenAccount = walletAddress ∧
    U64SetString (ta_Info_Amount tokenAccount) = Some amount ∧
    account = mkTokenAccountInfo (Value_Pubkey notification) walletAddress
                (ta_Info_Mint tokenAccount) (uint64 amount)
                (ta_Info_Decimals tokenAccount) "" (timeNow (clockReads w)) ∧
    w' = mkWorld (heap w) (rpcCalls w) (S (clockReads w)) (wsCalls w)
                 (subscriptions w) (out w).
Proof.
  unfold parseTokenAccountFromSubscription, decodeAccount.
  destruct (String.eqb (acc_Owner (Value_Account notification)) TokenProgramID) eqn:Eprog;
    simpl; [|done].
  apply String.eqb_eq in Eprog.
  destruct (jsonMarshal (Value_Account notification)) as [accountData|]; [|done].
  destruct (jsonUnmarshal accountData) as [tokenAccount|]; [|done].
  destruct (String.eqb (ta_Info_Owner tokenAccount) walletAddress) eqn:Eown;
    simpl; [|done].
  apply String.eqb_eq in Eown.
  destruct (U64SetString (ta_Info_Amount tokenAccount)) as [amount|] eqn:Eamt; [|done].
  unfold bind, now, ret. intros [= <- <-]. split; [done|].
  by exists tokenAccount, amount.
Qed.

(** X7. A delivered notification that decodes to a record of a tracked mint
    puts that record under its key in the state map.  Its program id is
    empty, so the program id a snapshot had stored under the key is gone;
    and when the balance stored under the key equals the record's, the
    replacement is silent: nothing is sent out. *)
Theorem deliver_replaces_record m walletAddress notification w st account w1 :
  store m w = Some st →
  parseTokenAccountFromSubscription notification walletAddress w
  = Some (Ok (Some account), w1) →
  shouldTrackToken m (Mint account) = true →
  ∃ w' st',
    deliver m walletAddress notification w = Some (tt, w') ∧
    store m w' = Some st' ∧
    st' !! stateKey account = Some account ∧
    ProgramID account = "" ∧
    Owner account = walletAddress ∧
    (∀ oldAccount, st !! stateKey account = Some oldAccount →
                   Balance oldAccount = Balance account → out w' = out w).
Proof.
  intros Hst Hp Htr.
  destruct (parseTokenAccountFromSubscription_cases notification walletAddress w)
    as [Hp'|[[err Hp']|(ta & amount & account' & w1' & _ & Hdec & _ & Hamt & _ & _ & _ & Hh & Ho & Hp')]];
    rewrite Hp in Hp'; try done.
  injection Hp' as <- <-.
  assert (Hst1 : store m w1 = Some st) by (unfold store; by rewrite Hh).
  unfold deliver, programCallback, walletCallback.
  rewrite (bind_run _ _ _ _ _ Hp), Htr. simpl.
  eexists _, _. split; [by apply processAccountUpdate_run|].
  rewrite store_addOut, store_setHeap, lookup_insert_eq.
  split; [done|]. rewrite lookup_insert_eq. split; [done|].
  unfold parseTokenAccountFromSubscription in Hp.
  destruct (String.eqb (acc_Owner (Value_Account notification)) TokenProgramID);
    simpl in Hp; [|done].
  destruct (jsonMarshal (Value_Account notification)) as [accountData|]; [|done].
  destruct (jsonUnmarshal accountData) as [tokenAccount|]; [|done].
  destruct (String.eqb (ta_Info_Owner tokenAccount) walletAddress); simpl in Hp; [|done].
  destruct (U64SetString (ta_Info_Amount tokenAccount)) as [amount'|]; [|done].
  unfold bind, now, ret in Hp. injection Hp as <- _.
  split; [done|]. split; [done|].
  intros oldAccount Hold Hbal. simpl. unfold balanceDiffers. simpl in Hold.
  rewrite Hold. simpl in Hbal. rewrite Hbal, Z.eqb_refl. simpl.
  by rewrite app_nil_r, Ho.
Qed.

(** X8. A subscription task leaves every map and every earlier subscription
    as they were and does one of three things.  For an address that does
    not decode it logs the failure without calling the websocket; when the
    websocket refuses the subscription it logs that failure; otherwise it
    opens the subscription of the wallet, silently. *)
Theorem subscriptionTask_outcomes m walletAddress w :
  ∃ w',
    subscriptionTask m walletAddress w = Some (tt, w') ∧
    heap w' = heap w ∧
    ((PublicKeyFromBase58 walletAddress = false ∧
      wsCalls w' = wsCalls w ∧
      subscriptions w' = subscriptions w ∧
      out w' = out w ++ [LogErrorSubscribe walletAddress ErrInvalidWalletAddress]) ∨
     (PublicKeyFromBase58 walletAddress = true ∧
      wsProgramSubscribe (wsCalls w) = false ∧
      wsCalls w' = S (wsCalls w) ∧
      subscriptions w' = subscriptions w ∧
      out w' = out w ++ [LogErrorSubscribe walletAddress ErrSubscribe]) ∨
     (PublicKeyFromBase58 walletAddress = true ∧
      wsProgramSubscribe (wsCalls w) = true ∧
      wsCalls w' = S (wsCalls w) ∧
      subscriptions w' = subscriptions w ++ [walletAddress] ∧
      out w' = out w)).
Proof.
  unfold subscriptionTask, subscribeToWalletUpdates, SubscribeToTokenAccountUpdates.
  destruct (PublicKeyFromBase58 walletAddress); simpl.
  - unfold bind, wsSubscribe. destruct (wsProgramSubscribe (wsCalls w)); simpl.
    + eexists. split; [done|]. split; [done|]. right; right. done.
    + eexists. split; [done|]. split; [done|]. right; left. done.
  - unfold bind, ret, emit. eexists. split; [done|]. split; [done|]. by left.
Qed.

End Push.

Lemma parseTokenAccountFromSubscription_record_witness :
  ∃ tokenAccount amount,
    @decodeAccount exampleNode (mkRpcAccount 0 TokenProgramID "W2" false 0)
    = Some tokenAccount ∧
    ta_Info_Owner tokenAccount = "W2" ∧
    @U64SetString exampleNode (ta_Info_Amount tokenAccount) = Some amount ∧
    amount = 150%Z.
Proof.
  destruct (@parseTokenAccountFromSubscription_record exampleNode
              (mkProgramNotification "acc1" (mkRpcAccount 0 TokenProgramID "W2" false 0))
              "W2" emptyWorld
              (mkTokenAccountInfo "acc1" "W2" "M1" 150 6 "" 0)
              (mkWorld ∅ 0 1 0 [] []) eq_refl)
    as (_ & tokenAccount & amount & Hdec & Hown & Hamt & _).
  exists tokenAccount, amount. split; [exact Hdec|]. split; [exact Hown|].
  split; [exact Hamt|].
  vm_compute in Hdec. injection Hdec as <-. vm_compute in Hamt. by injection Hamt as <-.
Defined.

Lemma deliver_replaces_record_witness :
  ∃ w' st',
    @deliver exampleNode (exampleMonitor ["W2"] []) "W2"
      (mkProgramNotification "acc1" (mkRpcAccount 0 TokenProgramID "W2" false 0))
      (worldWith {[ pairKey "W2" "M1" := exampleAccount "M1" 150 ]}) = Some (tt, w') ∧
    store (exampleMonitor ["W2"] []) w' = Some st' ∧
    st' !! pairKey "W2" "M1" = Some (mkTokenAccountInfo "acc1" "W2" "M1" 150 6 "" 0) ∧
    out w' = [].
Proof.
  destruct (@deliver_replaces_record exampleNode (exampleMonitor ["W2"] []) "W2"
              (mkProgramNotification "acc1" (mkRpcAccount 0 TokenProgramID "W2" false 0))
              (worldWith {[ pairKey "W2" "M1" := exampleAccount "M1" 150 ]})
              {[ pairKey "W2" "M1" := exampleAccount "M1" 150 ]}
              (mkTokenAccountInfo "acc1" "W2" "M1" 150 6 "" 0)
              (mkWorld {[0 := {[ pairKey "W2" "M1" := exampleAccount "M1" 150 ]}]}
                 0 1 0 [] [])
              eq_refl eq_refl eq_refl)
    as (w' & st' & Hrun & Hst' & Hrec & _ & _ & Hsilent).
  exists w', st'. split; [exact Hrun|]. split; [exact Hst'|]. split; [exact Hrec|].
  apply (Hsilent (exampleAccount "M1" 150)); reflexivity.
Defined.

(** ** Monitors, polls and the life of a record *)

(** X9. Two monitors built one after the other have different state maps,
    both empty; building them changes no map that existed, and from then on
    an update of the first never changes the state map of the second. *)
Theorem NewMonitor_isolated ws1 ts1 ws2 ts2 w0 m1 w1 m2 w2 :
  NewMonitor ws1 ts1 w0 = Some (m1, w1) →
  NewMonitor ws2 ts2 w1 = Some (m2, w2) →
  state m1 ≠ state m2 ∧
  store m1 w2 = Some ∅ ∧
  store m2 w2 = Some ∅ ∧
  (∀ l, is_Some (heap w0 !! l) → heap w2 !! l = heap w0 !! l) ∧
  ∀ account w3 w4,
    processAccountUpdate m1 account w3 = Some (tt, w4) →
    store m2 w4 = store m2 w3.
Proof.
  rewrite !NewMonitor_run. intros [= <- <-] [= <- <-]. simpl.
  set (l1 := fresh (dom (heap w0))).
  set (l2 := fresh (dom (<[l1 := ∅]> (heap w0)))).
  assert (Hne : l1 ≠ l2).
  { intros Heq. apply (is_fresh (dom (<[l1 := ∅]> (heap w0)))). fold l2.
    rewrite <- Heq, dom_insert_L. apply elem_of_union_l. by apply elem_of_singleton. }
  split; [done|]. unfold store; simpl. split.
  { rewrite lookup_insert_ne by done. apply lookup_insert_eq. }
  split; [apply lookup_insert_eq|]. split.
  { intros l Hl.
    assert (Hl1 : l1 ≠ l).
    { intros Heq. apply (is_fresh (dom (heap w0))). fold l1. rewrite Heq.
      by apply elem_of_dom. }
    assert (Hl2 : l2 ≠ l).
    { intros Heq. apply (is_fresh (dom (<[l1 := ∅]> (heap w0)))). fold l2.
      rewrite Heq, dom_insert_L. apply elem_of_union_r. by apply elem_of_dom. }
    by rewrite !lookup_insert_ne. }
  intros account w3 w4 Hrun.
  destruct (heap w3 !! l1) as [st1|] eqn:Hst1.
  - rewrite (processAccountUpdate_run _ account w3 st1) in Hrun by done.
    injection Hrun as <-. simpl. by rewrite lookup_insert_ne.
  - by rewrite processAccountUpdate_nil in Hrun.
Qed.

Lemma NewMonitor_isolated_witness :
  state (mkMonitor ["W1"] [] [] 0) ≠ state (mkMonitor ["W2"] [] [] 1) ∧
  store (mkMonitor ["W1"] [] [] 0) (setHeap {[0 := ∅; 1 := ∅]} emptyWorld) = Some ∅ ∧
  store (mkMonitor ["W2"] [] [] 1) (setHeap {[0 := ∅; 1 := ∅]} emptyWorld) = Some ∅.
Proof.
  destruct (NewMonitor_isolated ["W1"] [] ["W2"] [] emptyWorld
              (mkMonitor ["W1"] [] [] 0) (worldWith ∅)
              (mkMonitor ["W2"] [] [] 1) (setHeap {[0 := ∅; 1 := ∅]} emptyWorld))
    as (Hne & H1 & H2 & _).
  - reflexivity.
  - vm_compute. reflexivity.
  - split; [exact Hne|]. split; [exact H1|exact H2].
Defined.

Section Poll.
Context `{ext : Externals}.

Lemma pollWallets_app m ws1 ws2 w :
  pollWallets m (ws1 ++ ws2) w = (pollWallets m ws1 ;; pollWallets m ws2) w.
Proof.
  revert w. induction ws1 as [|wallet rest IH]; intros w; simpl; [done|].
  unfold bind. destruct (GetTokenAccounts wallet w) as [[[accounts|err] w1]|];
    [| |done].
  - destruct (trackAccounts m accounts w1) as [[[] w2]|]; [|done].
    rewrite IH. done.
  - unfold emit. rewrite IH. done.
Qed.

Lemma pollWallets_ingests_inv m ws w st w' :
  store m w = Some st → pollWallets m ws w = Some (tt, w') → ingests m w w'.
Proof.
  intros Hst Hrun. destruct (pollWallets_ingests m ws w st Hst) as (w'' & Hrun' & Hin).
  rewrite Hrun in Hrun'. by injection Hrun' as <-.
Qed.

(** X10. A poll tick on a monitor whose state map exists returns, and the
    failure of a fetch stops nothing: whatever happened to the wallets
    polled before and whatever happens to those polled after, every tracked
    account that the fetch of a wallet returns during the tick has a record
    under its key when the tick ends. *)
Theorem pollTick_survives_failures m w st before wallet after w1 accounts w2 account :
  store m w = Some st →
  wallets m = before ++ wallet :: after →
  pollWallets m before w = Some (tt, w1) →
  GetTokenAccounts wallet w1 = Some (Ok accounts, w2) →
  account ∈ accounts →
  shouldTrackToken m (Mint account) = true →
  ∃ w' st',
    pollTick m w = Some (tt, w') ∧
    store m w' = Some st' ∧
    is_Some (st' !! stateKey account).
Proof.
  intros Hst Hws Hbefore Hget Hin Htr. apply shouldTrackToken_spec in Htr.
  pose proof (pollWallets_ingests_inv m before w st w1 Hst Hbefore) as Hin1.
  destruct (ingests_store m w w1 Hin1) as [st1 Hst1].
  destruct (GetTokenAccounts_quiet wallet w1 _ w2 Hget) as [Hheap _].
  assert (Hst2 : store m w2 = Some st1) by (unfold store; by rewrite Hheap).
  destruct (trackAccounts_present m accounts w2 st1 account Hst2 Hin Htr)
    as (w3 & st3 & Htrack & Hst3 & Hdom).
  destruct (pollWallets_ingests m after w3 st3 Hst3) as (w' & Hafter & Hin3).
  destruct (ingests_store m w3 w' Hin3) as [st' Hst'].
  exists w', st'. split.
  - unfold pollTick. rewrite Hws, pollWallets_app, (bind_run _ _ _ _ _ Hbefore).
    simpl. rewrite (bind_run _ _ _ _ _ Hget). by rewrite (bind_run _ _ _ _ _ Htrack).
  - split; [done|]. apply elem_of_dom.
    by apply (ingests_dom m w3 w' st3 st' Hin3 Hst3 Hst').
Qed.

Lemma monitorSteps_ingests m w w' st :
  store m w = Some st → rtc (monitorStep m) w w' → ingests m w w'.
Proof.
  intros Hst Hsteps. revert st Hst.
  induction Hsteps as [w|w w1 w2 Hstep _ IH]; intros st Hst.
  - by apply (ingests_refl m w st).
  - pose proof (monitorStep_ingests m w w1 st Hst Hstep) as Hin.
    destruct (ingests_store m w w1 Hin) as [st1 Hst1].
    apply (ingests_trans m w w1 w2 Hin). by apply (IH st1).
Qed.

(** X11. The activities of the monitor never delete a record and touch no
    other map.  Along any sequence of them the state map keeps every key it
    had, every record it holds at the end was there at the start or has a
    tracked mint, every other map is as it was, and the trace only grows. *)
Theorem monitor_never_deletes m w w' st :
  store m w = Some st →
  rtc (monitorStep m) w w' →
  ∃ st' events,
    store m w' = Some st' ∧
    dom st ⊆ dom st' ∧
    (∀ k account, st' !! k = Some account →
       st !! k = Some account ∨ tokens m = [] ∨ Mint account ∈ tokens m) ∧
    (∀ l, l ≠ state m → heap w' !! l = heap w !! l) ∧
    out w' = out w ++ events.
Proof.
  intros Hst Hsteps.
  destruct (monitorSteps_ingests m w w' st Hst Hsteps)
    as (st0 & st' & es & Hst0 & Hheap & Hout & Hdom & Hrec).
  rewrite Hst in Hst0. injection Hst0 as <-.
  exists st', es. split; [unfold store; rewrite Hheap; apply lookup_insert_eq|].
  split; [done|]. split; [exact Hrec|]. split; [|done].
  intros l Hl. rewrite Hheap. by apply lookup_insert_ne.
Qed.

(** X12. On a monitor whose state map exists no activity panics: [Start], a
    subscription task, the delivery of a notification and a poll tick all
    return, whatever the node, the websocket and the decoder answer. *)
Theorem monitor_activities_return m w st :
  store m w = Some st →
  (∃ r w', Start m w = Some (r, w')) ∧
  (∀ walletAddress, ∃ w', subscriptionTask m walletAddress w = Some (tt, w')) ∧
  (∀ walletAddress res, ∃ w', deliver m walletAddress res w = Some (tt, w')) ∧
  (∃ w', pollTick m w = Some (tt, w')).
Proof.
  intros Hst. split.
  { destruct (Start_ingests m w st Hst) as (r & w' & Hrun & _). by exists r, w'. }
  split.
  { intros wa. destruct (subscriptionTask_quiet m wa w) as (w' & Hrun & _). by exists w'. }
  split.
  { intros wa res. destruct (deliver_ingests m wa res w st Hst) as (w' & Hrun & _).
    by exists w'. }
  destruct (pollWallets_ingests m (wallets m) w st Hst) as (w' & Hrun & _). by exists w'.
Qed.

End Poll.

(** ** What the state map and the trace of a monitor hold *)

Section Kept.
Context `{ext : Externals}.

Lemma ingestTrace_app m es1 es2 :
  ingestTrace m es1 → ingestTrace m es2 → ingestTrace m (es1 ++ es2).
Proof.
  induction 1 as [|e es Hnote _ IH|account es Htr Hw _ IH]; intros H2; simpl.
  - done.
  - apply ingestTrace_note; [done|by apply IH].
  - rewrite <- app_assoc. apply ingestTrace_dispatch; [done|done|by apply IH].
Qed.

Lemma ingestTrace_notes m es : Forall isNote es → ingestTrace m es.
Proof.
  induction 1 as [|e es Hnote _ IH]; [apply ingestTrace_nil|].
  by apply ingestTrace_note.
Qed.

Lemma monitorTrace_of_ingest m es : ingestTrace m es → monitorTrace m es.
Proof.
  intros Hes. rewrite <- (app_nil_r es).
  apply monitorTrace_ingest; [done|apply monitorTrace_nil].
Qed.

Lemma monitorTrace_app m es1 es2 :
  monitorTrace m es1 → monitorTrace m es2 → monitorTrace m (es1 ++ es2).
Proof.
  induction 1 as [|es es' Hes _ IH|wa es Hwa _ IH|es _ IH]; intros H2; simpl.
  - done.
  - rewrite <- app_assoc. apply monitorTrace_ingest; [done|by apply IH].
  - apply monitorTrace_subscribe; [done|by apply IH].
  - apply monitorTrace_polling. by apply IH.
Qed.

Lemma ingestsWatched_store m w w' : ingestsWatched m w w' → is_Some (store m w').
Proof.
  intros (st & st' & es & _ & Hheap & _). unfold store. rewrite Hheap, lookup_insert_eq.
  by eexists.
Qed.

Lemma ingestsWatched_refl m w st : store m w = Some st → ingestsWatched m w w.
Proof.
  intros Hst. exists st, st, []. split; [done|]. split.
  { symmetry. by apply insert_id. }
  split; [done|]. split; [by rewrite app_nil_r|]. split; [apply ingestTrace_nil|].
  split; [done|]. by left.
Qed.

Lemma ingestsWatched_trans m w1 w2 w3 :
  ingestsWatched m w1 w2 → ingestsWatched m w2 w3 → ingestsWatched m w1 w3.
Proof.
  intros (st1 & st2 & es1 & Hst1 & Hh1 & Hs1 & Ho1 & Ht1 & Hd1 & Hr1)
         (st2' & st3 & es2 & Hst2 & Hh2 & Hs2 & Ho2 & Ht2 & Hd2 & Hr2).
  unfold store in Hst2. rewrite Hh1, lookup_insert_eq in Hst2.
  injection Hst2 as <-.
  exists st1, st3, (es1 ++ es2). split; [done|]. split.
  { by rewrite Hh2, Hh1, insert_insert_eq. }
  split; [congruence|]. split; [by rewrite Ho2, Ho1, app_assoc|].
  split; [by apply ingestTrace_app|]. split; [by etrans|].
  intros k account Hk. destruct (Hr2 k account Hk) as [Hold|?]; [|by right].
  by apply Hr1.
Qed.

(** A step that only logs warnings or errors. *)
Lemma notes_ingestsWatched m w w' st es :
  store m w = Some st →
  heap w' = heap w → subscriptions w' = subscriptions w →
  out w' = out w ++ es → Forall isNote es →
  ingestsWatched m w w'.
Proof.
  intros Hst Hh Hs Ho Hes. exists st, st, es. split; [done|]. split.
  { rewrite Hh. symmetry. by apply insert_id. }
  split; [done|]. split; [done|]. split; [by apply ingestTrace_notes|].
  split; [done|]. by left.
Qed.

Lemma GetTokenAccounts_notes walletAddress w r w' :
  GetTokenAccounts walletAddress w = Some (r, w') →
  heap w' = heap w ∧ subscriptions w' = subscriptions w ∧
  (∃ es, out w' = out w ++ es ∧ Forall isNote es) ∧
  ∀ accounts, r = Ok accounts →
    PublicKeyFromBase58 walletAddress = true ∧
    Forall (λ a, Owner a = walletAddress) accounts.
Proof.
  unfold GetTokenAccounts. destruct (PublicKeyFromBase58 walletAddress); simpl.
  - unfold bind at 1, rpcRequest.
    destruct (rpcGetTokenAccountsByOwner (rpcCalls w) walletAddress) as [items|].
    + destruct (tokenInfos_shape walletAddress items []
                  (mkWorld (heap w) (S (rpcCalls w)) (clockReads w) (wsCalls w)
                     (subscriptions w) (out w))) as (news & Hrun & _ & Hown & _).
      rewrite (bind_run _ _ _ _ _ Hrun). simpl. intros [= <- <-]. simpl.
      split; [done|]. split; [done|]. split.
      * eexists. split; [done|]. apply Forall_forall. intros e He.
        apply list_elem_of_In, in_map_iff in He as (pk & <- & _). done.
      * by intros ? [= <-].
    + intros [= <- <-]. simpl. split; [done|]. split; [done|]. split; [|done].
      exists []. by rewrite app_nil_r.
  - intros [= <- <-]. split; [done|]. split; [done|]. split; [|done].
    exists []. by rewrite app_nil_r.
Qed.

Lemma processAccountUpdate_ingestsWatched m account w st :
  store m w = Some st →
  tracked m (Mint account) →
  watched m (Owner account) →
  ∃ w', processAccountUpdate m account w = Some (tt, w') ∧ ingestsWatched m w w'.
Proof.
  intros Hst Htr Hw. eexists. split; [by apply processAccountUpdate_run|].
  exists st, (<[stateKey account := account]> st),
    (if balanceDiffers st account then dispatch m account else []).
  split; [done|]. split; [done|]. split; [done|]. split; [done|]. split.
  { destruct (balanceDiffers st account); [|apply ingestTrace_nil].
    rewrite <- (app_nil_r (dispatch m account)).
    apply ingestTrace_dispatch; [done|done|apply ingestTrace_nil]. }
  split; [rewrite dom_insert_L; apply union_subseteq_r|].
  intros k a. rewrite lookup_insert. case_decide as Hk.
  - intros [= <-]. by right.
  - by left.
Qed.

Lemma trackAccounts_ingestsWatched m accounts w st :
  store m w = Some st →
  Forall (λ a, watched m (Owner a)) accounts →
  ∃ w', trackAccounts m accounts w = Some (tt, w') ∧ ingestsWatched m w w'.
Proof.
  revert w st. induction accounts as [|a rest IH]; intros w st Hst Hall; simpl.
  - exists w. split; [done|]. by apply (ingestsWatched_refl m w st).
  - apply Forall_cons in Hall as [Ha Hall].
    destruct (shouldTrackToken m (Mint a)) eqn:Htr.
    + apply shouldTrackToken_spec in Htr.
      destruct (processAccountUpdate_ingestsWatched m a w st Hst Htr Ha) as (w1 & Hrun & Hin).
      rewrite (bind_run _ _ _ _ _ Hrun).
      destruct (ingestsWatched_store m w w1 Hin) as [st1 Hst1].
      destruct (IH w1 st1 Hst1 Hall) as (w' & Hrest & Hin').
      exists w'. split; [done|]. by apply (ingestsWatched_trans m w w1 w').
    + unfold bind, ret. exact (IH w st Hst Hall).
Qed.

(** The fetch of a configured wallet followed by the loop over its accounts. *)
Lemma fetched_ingestsWatched m wallet w st accounts w1 :
  store m w = Some st →
  wallet ∈ wallets m →
  GetTokenAccounts wallet w = Some (Ok accounts, w1) →
  ∃ w2, trackAccounts m accounts w1 = Some (tt, w2) ∧ ingestsWatched m w w2.
Proof.
  intros Hst Hin Hget.
  destruct (GetTokenAccounts_notes wallet w _ w1 Hget) as (Hh & Hs & (es & Ho & Hes) & Hok).
  destruct (Hok accounts eq_refl) as [Hvalid Hown].
  assert (Hst1 : store m w1 = Some st) by (unfold store; by rewrite Hh).
  destruct (trackAccounts_ingestsWatched m accounts w1 st Hst1) as (w2 & Hrun & Hin2).
  { apply Forall_forall. intros a Ha.
    rewrite (proj1 (Forall_forall _ _) Hown a Ha). by split. }
  exists w2. split; [done|].
  apply (ingestsWatched_trans m w w1 w2); [|done].
  by apply (notes_ingestsWatched m w w1 st es).
Qed.

Lemma updateInitialStateFrom_ingestsWatched m ws w st :
  store m w = Some st →
  (∀ wallet, wallet ∈ ws → wallet ∈ wallets m) →
  ∃ r w', updateInitialStateFrom m ws w = Some (r, w') ∧ ingestsWatched m w w'.
Proof.
  revert w st. induction ws as [|wallet rest IH]; intros w st Hst Hsub; simpl.
  - exists None, w. split; [done|]. by apply (ingestsWatched_refl m w st).
  - destruct (GetTokenAccounts_run wallet w) as (r & w1 & Hget & _).
    rewrite (bind_run _ _ _ _ _ Hget). destruct r as [accounts|err].
    + destruct (fetched_ingestsWatched m wallet w st accounts w1 Hst
                  (Hsub wallet ltac:(by left)) Hget) as (w2 & Htrack & Hin2).
      rewrite (bind_run _ _ _ _ _ Htrack).
      destruct (ingestsWatched_store m w w2 Hin2) as [st2 Hst2].
      destruct (IH w2 st2 Hst2) as (r & w' & Hrest & Hin3).
      { intros x Hx. apply Hsub. by right. }
      exists r, w'. split; [done|]. by apply (ingestsWatched_trans m w w2 w').
    + exists (Some err), w1. split; [done|].
      destruct (GetTokenAccounts_notes wallet w _ w1 Hget) as (Hh & Hs & (es & Ho & Hes) & _).
      by apply (notes_ingestsWatched m w w1 st es).
Qed.

Lemma pollWallets_ingestsWatched m ws w st :
  store m w = Some st →
  (∀ wallet, wallet ∈ ws → wallet ∈ wallets m) →
  ∃ w', pollWallets m ws w = Some (tt, w') ∧ ingestsWatched m w w'.
Proof.
  revert w st. induction ws as [|wallet rest IH]; intros w st Hst Hsub; simpl.
  - exists w. split; [done|]. by apply (ingestsWatched_refl m w st).
  - destruct (GetTokenAccounts_run wallet w) as (r & w1 & Hget & _).
    rewrite (bind_run _ _ _ _ _ Hget). destruct r as [accounts|err].
    + destruct (fetched_ingestsWatched m wallet w st accounts w1 Hst
                  (Hsub wallet ltac:(by left)) Hget) as (w2 & Htrack & Hin2).
      rewrite (bind_run _ _ _ _ _ Htrack).
      destruct (ingestsWatched_store m w w2 Hin2) as [st2 Hst2].
      destruct (IH w2 st2 Hst2) as (w' & Hrest & Hin3).
      { intros x Hx. apply Hsub. by right. }
      exists w'. split; [done|]. by apply (ingestsWatched_trans m w w2 w').
    + unfold bind at 1, emit.
      destruct (GetTokenAccounts_notes wallet w _ w1 Hget) as (Hh & Hs & (es & Ho & Hes) & _).
      assert (Hst1 : store m (addOut [LogErrorPoll wallet err] w1) = Some st)
        by (unfold store; simpl; by rewrite Hh).
      destruct (IH _ st Hst1) as (w' & Hrest & Hin3).
      { intros x Hx. apply Hsub. by right. }
      exists w'. split; [done|].
      apply (ingestsWatched_trans m w (addOut [LogErrorPoll wallet err] w1) w'); [|done].
      apply (notes_ingestsWatched m w _ st (es ++ [LogErrorPoll wallet err]));
        [done|done|done| |].
      * simpl. by rewrite Ho, app_assoc.
      * apply Forall_app. split; [done|]. by repeat constructor.
Qed.

Lemma deliver_ingestsWatched m walletAddress res w st :
  store m w = Some st →
  watched m walletAddress →
  ∃ w', deliver m walletAddress res w = Some (tt, w') ∧ ingestsWatched m w w'.
Proof.
  intros Hst Hw. unfold deliver, programCallback.
  destruct (parseTokenAccountFromSubscription_cases res walletAddress w)
    as [Hp|[[err Hp]|(ta & amount & account & w1 & _ & _ & _ & _ & Hown & _ & _ & Hh & Ho & Hp)]];
    rewrite (bind_run _ _ _ _ _ Hp).
  - exists w. split; [done|]. by apply (ingestsWatched_refl m w st).
  - eexists. split; [done|].
    apply (notes_ingestsWatched m w _ st [LogWarnParseUpdate err]); try done.
    by repeat constructor.
  - assert (Hst1 : store m w1 = Some st) by (unfold store; by rewrite Hh).
    assert (Hsubs : subscriptions w1 = subscriptions w).
    { unfold parseTokenAccountFromSubscription in Hp.
      destruct (negb _); [done|]. destruct (jsonMarshal _); [|done].
      destruct (jsonUnmarshal _); [|done]. destruct (negb _); [done|].
      destruct (U64SetString _); [|done]. unfold bind, now, ret in Hp.
      by injection Hp as _ <-. }
    assert (Hstep : ingestsWatched m w w1).
    { apply (notes_ingestsWatched m w w1 st []); try done. by rewrite app_nil_r. }
    unfold walletCallback. destruct (shouldTrackToken m (Mint account)) eqn:Htr; simpl.
    + apply shouldTrackToken_spec in Htr. rewrite <- Hown in Hw.
      destruct (processAccountUpdate_ingestsWatched m account w1 st Hst1 Htr Hw)
        as (w' & Hrun & Hin).
      exists w'. split; [done|]. by apply (ingestsWatched_trans m w w1 w').
    + by exists w1.
Qed.

End Kept.

Section KeptInvariant.
Context `{ext : Externals}.

Lemma dispatch_elem m account e :
  e ∈ dispatch m account →
  e = LogInfoBalanceChanged (Owner account) (Mint account) (Balance account) ∨
  ∃ handler, handler ∈ handlers m ∧ e = GoHandler handler account.
Proof.
  unfold dispatch. intros [->|Hin]%elem_of_cons; [by left|]. right.
  apply list_elem_of_In, in_map_iff in Hin as (h & <- & Hh).
  exists h. split; [by apply list_elem_of_In|done].
Qed.

Lemma ingestTrace_elem m es e :
  ingestTrace m es → e ∈ es →
  isNote e ∨
  ∃ account, tracked m (Mint account) ∧ watched m (Owner account) ∧
             e ∈ dispatch m account.
Proof.
  induction 1 as [|e' es Hnote _ IH|account es Htr Hw _ IH]; intros Hin.
  - by apply elem_of_nil in Hin.
  - apply elem_of_cons in Hin as [->|Hin]; [by left|by apply IH].
  - apply elem_of_app in Hin as [Hin|Hin]; [|by apply IH].
    right. by exists account.
Qed.

Lemma monitorTrace_elem m es e :
  monitorTrace m es → e ∈ es →
  isNote e ∨
  (∃ account, tracked m (Mint account) ∧ watched m (Owner account) ∧
              e ∈ dispatch m account) ∨
  (∃ walletAddress, walletAddress ∈ wallets m ∧ e = GoSubscribe walletAddress) ∨
  e = GoPolling.
Proof.
  induction 1 as [|es es' Hes _ IH|wa es Hwa _ IH|es _ IH]; intros Hin.
  - by apply elem_of_nil in Hin.
  - apply elem_of_app in Hin as [Hin|Hin]; [|by apply IH].
    destruct (ingestTrace_elem m es e Hes Hin) as [?|?]; [by left|by right; left].
  - apply elem_of_cons in Hin as [->|Hin]; [|by apply IH].
    right; right; left. by exists wa.
  - apply elem_of_cons in Hin as [->|Hin]; [|by apply IH].
    by right; right; right.
Qed.

Lemma monitorTrace_subscribed m es walletAddress :
  monitorTrace m es → GoSubscribe walletAddress ∈ es → walletAddress ∈ wallets m.
Proof.
  intros Hes Hin.
  destruct (monitorTrace_elem m es _ Hes Hin)
    as [Hnote|[(a & _ & _ & Hd)|[(wa & Hwa & Heq)|Heq]]].
  - done.
  - apply dispatch_elem in Hd as [?|(h & _ & ?)]; done.
  - by injection Heq as ->.
  - done.
Qed.

Lemma monitorTrace_tasks m :
  monitorTrace m (map GoSubscribe (wallets m) ++ [GoPolling]).
Proof.
  assert (Hsub : ∀ ws, (∀ x, x ∈ ws → x ∈ wallets m) →
                       monitorTrace m (map GoSubscribe ws ++ [GoPolling])).
  { induction ws as [|x ws IH]; intros Hall; simpl.
    - apply monitorTrace_polling, monitorTrace_nil.
    - apply monitorTrace_subscribe; [apply Hall; by left|].
      apply IH. intros y Hy. apply Hall. by right. }
  by apply Hsub.
Qed.

Lemma wellKept_ingestsWatched m w held w' :
  wellKept m (w, held) → ingestsWatched m w w' → wellKept m (w', held).
Proof.
  intros (Hheld & (st & Hst & Hrec) & Htrace & Hsubs)
         (st0 & st' & es & Hst0 & Hheap & Hs & Ho & Hes & _ & Hnew).
  simpl in *. rewrite Hst in Hst0. injection Hst0 as <-.
  unfold wellKept; simpl. split; [done|]. split.
  { exists st'. split; [unfold store; rewrite Hheap; apply lookup_insert_eq|].
    intros k account Hk. destruct (Hnew k account Hk) as [Hold|?]; [|done].
    by apply Hrec. }
  split; simpl.
  - rewrite Ho. apply monitorTrace_app; [done|by apply monitorTrace_of_ingest].
  - by rewrite Hs.
Qed.

(** A step that leaves the state map and the subscriptions as they are. *)
Lemma wellKept_aside m w held w' held' es :
  wellKept m (w, held) →
  state m ∉ held' →
  store m w' = store m w →
  subscriptions w' = subscriptions w →
  out w' = out w ++ es → monitorTrace m es →
  wellKept m (w', held').
Proof.
  intros (_ & (st & Hst & Hrec) & Htrace & Hsubs) Hheld' Hstore Hs Ho Hes.
  simpl in *. unfold wellKept; simpl. split; [done|]. split.
  { exists st. split; [by rewrite Hstore|done]. }
  split; simpl.
  - rewrite Ho. by apply monitorTrace_app.
  - by rewrite Hs.
Qed.

Lemma subscriptionTask_subscriptions m walletAddress w w' :
  subscriptionTask m walletAddress w = Some (tt, w') →
  heap w' = heap w ∧
  (∃ es, out w' = out w ++ es ∧ Forall isNote es) ∧
  ∀ x, x ∈ subscriptions w' →
       x ∈ subscriptions w ∨ (x = walletAddress ∧ PublicKeyFromBase58 walletAddress = true).
Proof.
  unfold subscriptionTask, subscribeToWalletUpdates, SubscribeToTokenAccountUpdates.
  destruct (PublicKeyFromBase58 walletAddress); simpl.
  - unfold bind, wsSubscribe. destruct (wsProgramSubscribe (wsCalls w)); simpl.
    + intros [= <-]. simpl. split; [done|]. split.
      { exists []. by rewrite app_nil_r. }
      intros x [Hx|Hx]%elem_of_app; [by left|].
      apply list_elem_of_singleton in Hx. by right.
    + intros [= <-]. simpl. split; [done|]. split; [|by left].
      eexists. split; [done|]. by repeat constructor.
  - unfold bind, ret, emit. intros [= <-]. simpl. split; [done|]. split; [|by left].
    eexists. split; [done|]. by repeat constructor.
Qed.

Lemma wellKept_new ws ts w0 m0 w1 hs :
  subscriptions w0 = [] → out w0 = [] →
  NewMonitor ws ts w0 = Some (m0, w1) →
  wellKept (foldl RegisterHandler m0 hs) (w1, dom (heap w0)).
Proof.
  intros Hs Ho. rewrite NewMonitor_run. intros [= <- <-]. rewrite RegisterHandler_all.
  unfold wellKept; simpl. split; [apply is_fresh|]. split.
  { exists ∅. split; [apply lookup_insert_eq|]. intros k account.
    by rewrite lookup_empty. }
  split; simpl.
  - rewrite Ho. apply monitorTrace_nil.
  - rewrite Hs. by intros x ?%elem_of_nil.
Qed.

Lemma wellKept_step m c c' : wellKept m c → step m c c' → wellKept m c'.
Proof.
  intros Hkept Hstep.
  destruct Hstep as [w held w' Hmon|w held l w' Hrun|w held l w' Hrun
                    |w held l k v w' Hl Hrun|w held l k w' Hl Hrun].
  - pose proof Hkept as (Hheld & (st & Hst & Hrec) & Htrace & Hsubs). simpl in *.
    destruct Hmon as [w r w' Hrun|w wa w' Hgo Hrun|w wa res w' Hsub Hrun|w w' _ Hrun].
    + destruct (updateInitialStateFrom_ingestsWatched m (wallets m) w st Hst)
        as (r0 & w1 & Hboot & Hin); [done|].
      rewrite (Start_run m w r0 w1 Hboot) in Hrun. injection Hrun as <- <-.
      pose proof (wellKept_ingestsWatched m w held w1 Hkept Hin) as Hkept1.
      apply (wellKept_aside m w1 held _ held
               (match r0 with
                | Some _ => []
                | None => map GoSubscribe (wallets m) ++ [GoPolling]
                end) Hkept1); try done.
      destruct r0; [apply monitorTrace_nil|apply monitorTrace_tasks].
    + destruct (subscriptionTask_subscriptions m wa w w' Hrun)
        as (Hh & (es & Ho & Hes) & Hnew).
      unfold wellKept; simpl. split; [done|]. split.
      { exists st. split; [unfold store; by rewrite Hh|done]. }
      split; simpl.
      * rewrite Ho. apply monitorTrace_app; [done|].
        by apply monitorTrace_of_ingest, ingestTrace_notes.
      * intros x Hx. destruct (Hnew x Hx) as [Hold|[-> Hvalid]]; [by apply Hsubs|].
        split; [|done]. by apply (monitorTrace_subscribed m (out w)).
    + destruct (deliver_ingestsWatched m wa res w st Hst (Hsubs wa Hsub))
        as (w'' & Hrun' & Hin).
      rewrite Hrun in Hrun'. injection Hrun' as <-.
      by apply (wellKept_ingestsWatched m w held w').
    + destruct (pollWallets_ingestsWatched m (wallets m) w st Hst)
        as (w'' & Hrun' & Hin); [done|].
      unfold pollTick in Hrun. rewrite Hrun in Hrun'. injection Hrun' as <-.
      by apply (wellKept_ingestsWatched m w held w').
  - pose proof Hkept as (Hheld & (st & Hst & Hrec) & _). simpl in *.
    rewrite (GetCurrentState_run m w st Hst) in Hrun. injection Hrun as <- <-.
    assert (Hne : fresh (dom (heap w)) ≠ state m).
    { intros Heq. apply (is_fresh (dom (heap w))). rewrite Heq.
      apply elem_of_dom. by eexists. }
    apply (wellKept_aside m w held _ _ [] Hkept); simpl.
    + apply not_elem_of_union. split; [|done].
      apply not_elem_of_singleton. by intros Heq.
    + unfold store; simpl. by rewrite lookup_insert_ne.
    + done.
    + by rewrite app_nil_r.
    + apply monitorTrace_nil.
  - pose proof Hkept as (Hheld & (st & Hst & Hrec) & _). simpl in *.
    assert (Hne : l ≠ state m).
    { injection Hrun as <- _. intros Heq. apply (is_fresh (dom (heap w))).
      rewrite Heq. apply elem_of_dom. by eexists. }
    apply (wellKept_aside m w held _ _ [] Hkept); simpl.
    + apply not_elem_of_union. split; [|done].
      apply not_elem_of_singleton. by intros Heq.
    + unfold store. apply (mapMake_frame w l w' (state m) Hrun). by eexists.
    + by injection Hrun as _ <-.
    + injection Hrun as _ <-. simpl. by rewrite app_nil_r.
    + apply monitorTrace_nil.
  - pose proof Hkept as (Hheld & _). simpl in *.
    assert (Hne : state m ≠ l) by (intros Heq; by rewrite Heq in Hheld).
    apply (wellKept_aside m w held _ _ [] Hkept); simpl.
    + done.
    + unfold store. by apply (mapAssign_frame l k v w w' (state m) Hrun).
    + unfold mapAssign in Hrun. destruct (heap w !! l); [|done]. by injection Hrun as <-.
    + unfold mapAssign in Hrun. destruct (heap w !! l); [|done]. injection Hrun as <-.
      simpl. by rewrite app_nil_r.
    + apply monitorTrace_nil.
  - pose proof Hkept as (Hheld & _). simpl in *.
    assert (Hne : state m ≠ l) by (intros Heq; by rewrite Heq in Hheld).
    apply (wellKept_aside m w held _ _ [] Hkept); simpl.
    + done.
    + unfold store. by apply (mapDelete_frame l k w w' (state m) Hrun).
    + unfold mapDelete in Hrun. destruct (heap w !! l); by injection Hrun as <-.
    + unfold mapDelete in Hrun. destruct (heap w !! l); injection Hrun as <-;
        simpl; by rewrite app_nil_r.
    + apply monitorTrace_nil.
Qed.

Lemma monitored_wellKept m c : monitored m c → wellKept m c.
Proof.
  induction 1 as [ws ts w0 m0 w1 hs Hs Ho Hnew ->|c c' _ IH Hstep].
  - by apply (wellKept_new ws ts).
  - by apply (wellKept_step m c c').
Qed.

End KeptInvariant.

Lemma monitored_started :
  @monitored strictNode startedMonitor (startedWorld, dom (heap emptyWorld)).
Proof.
  apply (@monitored_step strictNode _ (worldWith ∅, dom (heap emptyWorld))).
  - apply (@monitored_new strictNode _ ["W2"] ["M1"] emptyWorld
             (mkMonitor ["W2"] ["M1"] [] 0) (worldWith ∅) [7]); reflexivity.
  - apply step_monitor. apply (@step_start strictNode _ _ None).
    vm_compute. reflexivity.
Qed.

Section KeptClaims.
Context `{ext : Externals}.








(** X13. In every configuration of a monitor built by [NewMonitor] in a
    world without subscriptions and with an empty trace, the state map
    exists and every record in it sits under the key of its own owner and
    mint, and its owner is one of the configured wallets, with an address
    that decodes. *)
Theorem stored_records_are_watched m w held :
  monitored m (w, held) →
  ∃ st,
    store m w = Some st ∧
    ∀ k account, st !! k = Some account →
      k = pairKey (Owner account) (Mint account) ∧
      Owner account ∈ wallets m ∧
      PublicKeyFromBase58 (Owner account) = true.
Proof.
  intros Hmon.
  destruct (monitored_wellKept m _ Hmon) as (_ & (st & Hst & Hrec) & _).
  exists st. split; [done|]. intros k account Hk.
  destruct (Hrec k account Hk) as (Hkey & _ & Hin & Hvalid). done.
Qed.

(** X14. When the decoder of addresses accepts no address containing [:],
    the key strings of such a monitor do not mix pairs up: whatever record
    is found under the key of a pair (owner, mint) whose owner decodes is a
    record of that owner and that mint. *)
Theorem stored_pairs_do_not_alias m w held st owner mint account :
  (∀ s, PublicKeyFromBase58 s = true → containsColon s = false) →
  monitored m (w, held) →
  store m w = Some st →
  PublicKeyFromBase58 owner = true →
  st !! pairKey owner mint = Some account →
  Owner account = owner ∧ Mint account = mint.
Proof.
  intros Hstrict Hmon Hst Hvalid Hk.
  destruct (monitored_wellKept m _ Hmon) as (_ & (st0 & Hst0 & Hrec) & _).
  simpl in Hst0. rewrite Hst in Hst0. injection Hst0 as <-.
  destruct (Hrec _ account Hk) as (Hkey & _ & _ & Hvalid').
  destruct (pairKey_inj owner mint (Owner account) (Mint account)
              (Hstrict _ Hvalid) (Hstrict _ Hvalid') Hkey) as [-> ->]. done.
Qed.

(** X15. Every notification in the trace of such a monitor concerns a
    tracked mint of a configured wallet: a goroutine was started only for a
    registered handler and such an account, and a change was logged only
    for such a wallet and mint. *)
Theorem notifications_are_for_watched m w held :
  monitored m (w, held) →
  (∀ handler account, GoHandler handler account ∈ out w →
     handler ∈ handlers m ∧
     (tokens m = [] ∨ Mint account ∈ tokens m) ∧
     Owner account ∈ wallets m) ∧
  (∀ wallet mint balance, LogInfoBalanceChanged wallet mint balance ∈ out w →
     (tokens m = [] ∨ mint ∈ tokens m) ∧ wallet ∈ wallets m).
Proof.
  intros Hmon.
  destruct (monitored_wellKept m _ Hmon) as (_ & _ & Htrace & _). simpl in Htrace.
  split.
  - intros h account Hin.
    destruct (monitorTrace_elem m (out w) _ Htrace Hin)
      as [Hnote|[(a & Htr & [Hw _] & Hd)|[(wa & _ & Heq)|Heq]]]; try done.
    apply dispatch_elem in Hd as [?|(h' & Hh' & Heq)]; [done|].
    injection Heq as -> ->. done.
  - intros wallet mint balance Hin.
    destruct (monitorTrace_elem m (out w) _ Htrace Hin)
      as [Hnote|[(a & Htr & [Hw _] & Hd)|[(wa & _ & Heq)|Heq]]]; try done.
    apply dispatch_elem in Hd as [Heq|(h' & _ & ?)]; [|done].
    injection Heq as -> -> ->. done.
Qed.


(** X17. Such a monitor starts subscription tasks for its configured
    wallets only, and every subscription that is open is for a configured
    wallet whose address decodes. *)
Theorem tasks_are_for_configured_wallets m w held :
  monitored m (w, held) →
  (∀ walletAddress, GoSubscribe walletAddress ∈ out w → walletAddress ∈ wallets m) ∧
  (∀ walletAddress, walletAddress ∈ subscriptions w →
     walletAddress ∈ wallets m ∧ PublicKeyFromBase58 walletAddress = true).
Proof.
  intros Hmon.
  destruct (monitored_wellKept m _ Hmon) as (_ & _ & Htrace & Hsubs). simpl in *.
  split.
  - intros wa Hin. by apply (monitorTrace_subscribed m (out w)).
  - intros wa Hin. by apply Hsubs.
Qed.

(** X18. [Start] launches the background tasks exactly when the bootstrap
    succeeded.  What it writes is first what the bootstrap wrote, which
    starts no task, and then, only when it returns no error, one
    subscription task per configured wallet, in order, followed by the
    poll.  It opens no subscription itself. *)
Theorem Start_launches_tasks_on_success m w st r w' :
  store m w = Some st →
  Start m w = Some (r, w') →
  ∃ events,
    out w' = out w ++ events
             ++ match r with
                | Some _ => []
                | None => map GoSubscribe (wallets m) ++ [GoPolling]
                end ∧
    Forall (λ e, e ≠ GoPolling ∧ ∀ walletAddress, e ≠ GoSubscribe walletAddress) events ∧
    subscriptions w' = subscriptions w.
Proof.
  intros Hst Hrun.
  destruct (updateInitialStateFrom_ingestsWatched m (wallets m) w st Hst)
    as (r0 & w1 & Hboot & (st0 & st1 & es & _ & _ & Hs & Ho & Hes & _)); [done|].
  rewrite (Start_run m w r0 w1 Hboot) in Hrun. injection Hrun as <- <-.
  exists es. split; [simpl; by rewrite Ho, app_assoc|]. split; [|done].
  apply Forall_forall. intros e He.
  destruct (ingestTrace_elem m es e Hes He) as [Hnote|(a & _ & _ & Hd)].
  - split; [by intros ->|]. by intros wa ->.
  - apply dispatch_elem in Hd as [->|(h & _ & ->)]; by split.
Qed.

End KeptClaims.

Lemma pollTick_survives_failures_witness :
  ∃ w' st',
    @pollTick exampleNode (exampleMonitor ["W1"; "W2"] []) (worldWith ∅) = Some (tt, w') ∧
    store (exampleMonitor ["W1"; "W2"] []) w' = Some st' ∧
    is_Some (st' !! pairKey "W2" "M1") ∧
    LogErrorPoll "W1" ErrGetTokenAccounts ∈ out w'.
Proof.
  destruct (@pollTick_survives_failures exampleNode (exampleMonitor ["W1"; "W2"] [])
              (worldWith ∅) ∅ ["W1"] "W2" []
              (mkWorld {[0 := ∅]} 1 0 0 [] [LogErrorPoll "W1" ErrGetTokenAccounts])
              [exampleAccount "M1" 100]
              (mkWorld {[0 := ∅]} 2 1 0 [] [LogErrorPoll "W1" ErrGetTokenAccounts])
              (exampleAccount "M1" 100))
    as (w' & st' & Hrun & Hst' & Hpresent).
  - reflexivity.
  - reflexivity.
  - reflexivity.
  - reflexivity.
  - apply list_elem_of_singleton. reflexivity.
  - reflexivity.
  - exists w', st'. split; [exact Hrun|]. split; [exact Hst'|]. split; [exact Hpresent|].
    vm_compute in Hrun. injection Hrun as <-. simpl. apply elem_of_cons. by left.
Defined.

Lemma monitor_never_deletes_witness :
  ∃ st' events,
    store startedMonitor startedWorld = Some st' ∧
    dom ({[ pairKey "W2" "M1" := exampleAccount "M1" 7 ]} : gmap string TokenAccountInfo)
      ⊆ dom st' ∧
    out startedWorld = [] ++ events.
Proof.
  destruct (@monitor_never_deletes strictNode startedMonitor
              (worldWith {[ pairKey "W2" "M1" := exampleAccount "M1" 7 ]}) startedWorld
              {[ pairKey "W2" "M1" := exampleAccount "M1" 7 ]})
    as (st' & events & Hst' & Hdom & _ & _ & Hout).
  - reflexivity.
  - apply rtc_once. apply (@step_start strictNode _ _ None). vm_compute. reflexivity.
  - by exists st', events.
Defined.

Lemma monitor_activities_return_witness :
  (∃ r w', @Start exampleNode (exampleMonitor ["W1"; "W2"] []) (worldWith ∅)
           = Some (r, w')) ∧
  (∃ w', @pollTick exampleNode (exampleMonitor ["W1"; "W2"] []) (worldWith ∅)
         = Some (tt, w')).
Proof.
  destruct (@monitor_activities_return exampleNode (exampleMonitor ["W1"; "W2"] [])
              (worldWith ∅) ∅ eq_refl) as (Hstart & _ & _ & Hpoll).
  split; [exact Hstart|exact Hpoll].
Defined.

Lemma stored_records_are_watched_witness :
  ∃ st,
    store startedMonitor startedWorld = Some st ∧
    ∀ k account, st !! k = Some account →
      k = pairKey (Owner account) (Mint account) ∧
      Owner account ∈ wallets startedMonitor ∧
      @PublicKeyFromBase58 strictNode (Owner account) = true.
Proof.
  exact (@stored_records_are_watched strictNode startedMonitor startedWorld _
           monitored_started).
Defined.

Lemma stored_pairs_do_not_alias_witness :
  Owner (exampleAccount "M1" 100) = "W2" ∧ Mint (exampleAccount "M1" 100) = "M1".
Proof.
  apply (@stored_pairs_do_not_alias strictNode startedMonitor startedWorld
           (dom (heap emptyWorld))
           {[ pairKey "W2" "M1" := exampleAccount "M1" 100 ]} "W2" "M1"
           (exampleAccount "M1" 100)).
  - intros s Hs. simpl in Hs. by apply negb_true_iff in Hs.
  - exact monitored_started.
  - reflexivity.
  - reflexivity.
  - reflexivity.
Defined.

Lemma notifications_are_for_watched_witness :
  GoHandler 7 (exampleAccount "M1" 100) ∈ out startedWorld ∧
  7 ∈ handlers startedMonitor ∧
  (tokens startedMonitor = [] ∨ Mint (exampleAccount "M1" 100) ∈ tokens startedMonitor) ∧
  Owner (exampleAccount "M1" 100) ∈ wallets startedMonitor.
Proof.
  assert (Hin : GoHandler 7 (exampleAccount "M1" 100) ∈ out startedWorld).
  { simpl. apply elem_of_cons. right. apply elem_of_cons. by left. }
  split; [exact Hin|].
  exact (proj1 (@notifications_are_for_watched strictNode startedMonitor startedWorld _
                  monitored_started) 7 (exampleAccount "M1" 100) Hin).
Defined.


Lemma tasks_are_for_configured_wallets_witness :
  (∀ walletAddress, GoSubscribe walletAddress ∈ out startedWorld →
     walletAddress ∈ wallets startedMonitor) ∧
  (∀ walletAddress, walletAddress ∈ subscriptions startedWorld →
     walletAddress ∈ wallets startedMonitor ∧
     @PublicKeyFromBase58 strictNode walletAddress = true).
Proof.
  exact (@tasks_are_for_configured_wallets strictNode startedMonitor startedWorld _
           monitored_started).
Defined.

Lemma Start_launches_tasks_on_success_witness :
  ∃ events,
    out startedWorld
    = out (worldWith ∅) ++ events
      ++ (map GoSubscribe (wallets startedMonitor) ++ [GoPolling]) ∧
    Forall (λ e, e ≠ GoPolling ∧ ∀ walletAddress, e ≠ GoSubscribe walletAddress) events ∧
    subscriptions startedWorld = subscriptions (worldWith ∅).
Proof.
  apply (@Start_launches_tasks_on_success strictNode startedMonitor (worldWith ∅) ∅
           None startedWorld).
  - reflexivity.
  - vm_compute. reflexivity.
Defined.

(** ** The configuration *)

Lemma Split_not_nil s sep : Split s sep ≠ [].
Proof.
  destruct s as [|c rest]; simpl; [done|].
  destruct (Ascii.eqb c sep); [done|]. by destruct (Split rest sep).
Qed.

Lemma Join_Split s sep : Join (Split s sep) sep = s.
Proof.
  induction s as [|c rest IH]; [done|]. simpl.
  destruct (Ascii.eqb c sep) eqn:Ec.
  - apply Ascii.eqb_eq in Ec as ->.
    pose proof (Split_not_nil rest sep) as Hne.
    destruct (Split rest sep) as [|piece pieces]; [done|].
    simpl in *. by rewrite IH.
  - pose proof (Split_not_nil rest sep) as Hne.
    destruct (Split rest sep) as [|piece pieces]; [done|].
    destruct pieces as [|piece' pieces]; simpl in *; by rewrite <- IH.
Qed.

Lemma Split_pieces s sep : Forall (λ piece, containsByte sep piece = false) (Split s sep).
Proof.
  induction s as [|c rest IH]; simpl; [by repeat constructor|].
  destruct (Ascii.eqb c sep) eqn:Ec.
  - by constructor.
  - destruct (Split rest sep) as [|piece pieces]; simpl.
    + repeat constructor. simpl. by rewrite Ec.
    + apply Forall_cons in IH as [Hp Hps]. constructor; [|done].
      simpl. by rewrite Ec.
Qed.

Lemma overrideFromEnv_Wallets env config :
  Wallets (overrideFromEnv env config)
  = if negb (String.eqb (Getenv env "MONITOR_WALLETS") "")
    then Split (Getenv env "MONITOR_WALLETS") ","
    else Wallets config.
Proof.
  unfold overrideFromEnv.
  destruct (negb (String.eqb (Getenv env "SOLANA_RPC_ENDPOINT") ""));
  destruct (negb (String.eqb (Getenv env "SOLANA_WS_ENDPOINT") ""));
  destruct (negb (String.eqb (Getenv env "MONITOR_WALLETS") ""));
  destruct (negb (String.eqb (Getenv env "MONITOR_TOKENS") ""));
  destruct (negb (String.eqb (Getenv env "LOG_LEVEL") "")); reflexivity.
Qed.

Lemma overrideFromEnv_Tokens env config :
  Tokens (overrideFromEnv env config)
  = if negb (String.eqb (Getenv env "MONITOR_TOKENS") "")
    then Split (Getenv env "MONITOR_TOKENS") ","
    else Tokens config.
Proof.
  unfold overrideFromEnv.
  destruct (negb (String.eqb (Getenv env "SOLANA_RPC_ENDPOINT") ""));
  destruct (negb (String.eqb (Getenv env "SOLANA_WS_ENDPOINT") ""));
  destruct (negb (String.eqb (Getenv env "MONITOR_WALLETS") ""));
  destruct (negb (String.eqb (Getenv env "MONITOR_TOKENS") ""));
  destruct (negb (String.eqb (Getenv env "LOG_LEVEL") "")); reflexivity.
Qed.

Lemma LoadConfig_Loaded env config level :
  LoadConfig env = Loaded config level →
  ∃ base, config = overrideFromEnv env base ∧ level = loggerLevel env config.
Proof.
  unfold LoadConfig. destruct (statConfigFile env).
  - destruct (readConfigFile env) as [data|]; [|done].
    destruct (jsonUnmarshalConfig env data defaultConfig) as [config'|]; [|done].
    intros [= <- <-]. by exists config'.
  - intros [= <- <-]. by exists defaultConfig.
Qed.

(** X19. When [LoadConfig] succeeds and the variable [MONITOR_WALLETS] is
    not empty, the wallets are the pieces of the variable between its
    commas, whatever the file said: there is at least one, none contains a
    comma, and joined by commas they give the variable back.  The same holds
    of the tokens and [MONITOR_TOKENS]. *)
Theorem LoadConfig_lists_from_environment env config level :
  LoadConfig env = Loaded config level →
  (Getenv env "MONITOR_WALLETS" ≠ "" →
     Wallets config = Split (Getenv env "MONITOR_WALLETS") "," ∧
     Wallets config ≠ [] ∧
     Forall (λ wallet, containsByte "," wallet = false) (Wallets config) ∧
     Join (Wallets config) "," = Getenv env "MONITOR_WALLETS") ∧
  (Getenv env "MONITOR_TOKENS" ≠ "" →
     Tokens config = Split (Getenv env "MONITOR_TOKENS") "," ∧
     Tokens config ≠ [] ∧
     Forall (λ token, containsByte "," token = false) (Tokens config) ∧
     Join (Tokens config) "," = Getenv env "MONITOR_TOKENS").
Proof.
  intros Hload. destruct (LoadConfig_Loaded env config level Hload) as (base & -> & _).
  split; intros Hset; apply String.eqb_neq in Hset.
  - rewrite overrideFromEnv_Wallets, Hset. simpl.
    split; [done|]. split; [apply Split_not_nil|].
    split; [apply Split_pieces|apply Join_Split].
  - rewrite overrideFromEnv_Tokens, Hset. simpl.
    split; [done|]. split; [apply Split_not_nil|].
    split; [apply Split_pieces|apply Join_Split].
Qed.

Lemma LoadConfig_lists_from_environment_witness :
  LoadConfig exampleEnv
  = Loaded (mkConfig "https://api.mainnet-beta.solana.com"
              "wss://api.mainnet-beta.solana.com" ["W1"; "W2"] [] "loud") InfoLevel ∧
  Join ["W1"; "W2"] "," = "W1,W2".
Proof.
  split; [reflexivity|].
  destruct (LoadConfig_lists_from_environment exampleEnv
              (mkConfig "https://api.mainnet-beta.solana.com"
                 "wss://api.mainnet-beta.solana.com" ["W1"; "W2"] [] "loud")
              InfoLevel eq_refl) as [Hwallets _].
  destruct Hwallets as (_ & _ & _ & Hjoin); [discriminate|]. exact Hjoin.
Defined.

(** X20. [LoadConfig] fails only on the file: exactly when [config.json]
    is found and cannot be read, or is read and cannot be unmarshalled.  No
    variable of the environment makes it fail, and neither does the log
    level: when the configured level does not parse, the configuration is
    returned all the same and the logger is set to [InfoLevel]. *)
Theorem LoadConfig_fails_only_on_file env :
  (∀ err,
     LoadConfig env = LoadFailed err ↔
     statConfigFile env = true ∧
     ((readConfigFile env = None ∧ err = ErrReadConfigFile) ∨
      (∃ data, readConfigFile env = Some data ∧
               jsonUnmarshalConfig env data defaultConfig = None ∧
               err = ErrParseConfigFile))) ∧
  (∀ config level,
     LoadConfig env = Loaded config level →
     match ParseLevel env (LogLevel config) with
     | Some parsed => level = parsed
     | None => level = InfoLevel
     end).
Proof.
  split.
  - intros err. unfold LoadConfig. destruct (statConfigFile env).
    + destruct (readConfigFile env) as [data|].
      * destruct (jsonUnmarshalConfig env data defaultConfig) as [config'|] eqn:Hjson.
        -- split; [done|]. intros [_ [[? _]|(data' & [= <-] & Hnone & _)]]; [done|].
           congruence.
        -- split.
           ++ intros [= <-]. split; [done|]. right. by exists data.
           ++ intros [_ [[? _]|(data' & _ & _ & ->)]]; done.
      * split.
        -- intros [= <-]. split; [done|]. by left.
        -- intros [_ [[_ ->]|(data' & ? & _)]]; done.
    + split; [done|]. by intros [? _].
  - intros config level Hload.
    destruct (LoadConfig_Loaded env config level Hload) as (base & _ & ->).
    unfold loggerLevel. by destruct (ParseLevel env (LogLevel config)).
Qed.

Lemma LoadConfig_fails_only_on_file_witness :
  LoadConfig exampleEnv
  = Loaded (mkConfig "https://api.mainnet-beta.solana.com"
              "wss://api.mainnet-beta.solana.com" ["W1"; "W2"] [] "loud") InfoLevel ∧
  match ParseLevel exampleEnv "loud" with
  | Some parsed => InfoLevel = parsed
  | None => InfoLevel = InfoLevel
  end.
Proof.
  split; [reflexivity|].
  exact (proj2 (LoadConfig_fails_only_on_file exampleEnv)
           (mkConfig "https://api.mainnet-beta.solana.com"
              "wss://api.mainnet-beta.solana.com" ["W1"; "W2"] [] "loud")
           InfoLevel eq_refl).
Defined.

(** ** The filter and the order of updates *)

(** X21. [shouldTrackToken] accepts a mint exactly when the list of tokens
    is empty or holds the mint, however often and wherever in the list. *)
Theorem shouldTrackToken_accepts_iff m mint :
  shouldTrackToken m mint = true ↔ tokens m = [] ∨ mint ∈ tokens m.
Proof.
  unfold shouldTrackToken.
  assert (Hloop : ∀ ts, tokenListed ts mint = true ↔ mint ∈ ts).
  { induction ts as [|token rest IH]; simpl.
    - split; [done|]. by intros ?%elem_of_nil.
    - rewrite elem_of_cons. destruct (String.eqb token mint) eqn:Heq.
      + apply String.eqb_eq in Heq. split; [by left|done].
      + apply String.eqb_neq in Heq. rewrite IH. split; [by right|].
        by intros [->|?]. }
  rewrite <- Hloop. destruct (tokens m) as [|token rest]; simpl.
  - split; [by left|done].
  - split; [by right|]. by intros [?|?].
Qed.

(** X22. Updates to different keys commute.  Applied in either order to a
    monitor whose state map exists, two updates of different keys leave the
    same state map, and each declares a change in one order exactly when it
    does in the other: the two orders send out the same two segments, one
    per update, in the order of application. *)
Theorem processAccountUpdate_commutes m a b w st :
  store m w = Some st →
  stateKey a ≠ stateKey b →
  ∃ wab wba sent_a sent_b,
    processAll m [a; b] w = Some (tt, wab) ∧
    processAll m [b; a] w = Some (tt, wba) ∧
    heap wab = heap wba ∧
    out wab = out w ++ sent_a ++ sent_b ∧
    out wba = out w ++ sent_b ++ sent_a ∧
    (sent_a = dispatch m a ∨ sent_a = []) ∧
    (sent_b = dispatch m b ∨ sent_b = []).
Proof.
  intros Hst Hne.
  pose proof (processAccountUpdate_run m a w st Hst) as Ha.
  pose proof (processAccountUpdate_run m b w st Hst) as Hb.
  set (wa := addOut _ _) in Ha. set (wb := addOut _ _) in Hb.
  assert (Hsta : store m wa = Some (<[stateKey a := a]> st)) by apply lookup_insert_eq.
  assert (Hstb : store m wb = Some (<[stateKey b := b]> st)) by apply lookup_insert_eq.
  pose proof (processAccountUpdate_run m b wa _ Hsta) as Hab.
  pose proof (processAccountUpdate_run m a wb _ Hstb) as Hba.
  assert (Hda : balanceDiffers (<[stateKey b := b]> st) a = balanceDiffers st a).
  { unfold balanceDiffers. by rewrite lookup_insert_ne. }
  assert (Hdb : balanceDiffers (<[stateKey a := a]> st) b = balanceDiffers st b).
  { unfold balanceDiffers. by rewrite lookup_insert_ne. }
  rewrite Hdb in Hab. rewrite Hda in Hba.
  eexists _, _, (if balanceDiffers st a then dispatch m a else []),
    (if balanceDiffers st b then dispatch m b else []).
  split.
  { simpl. rewrite (bind_run _ _ _ _ _ Ha), (bind_run _ _ _ _ _ Hab). done. }
  split.
  { simpl. rewrite (bind_run _ _ _ _ _ Hb), (bind_run _ _ _ _ _ Hba). done. }
  split.
  { simpl. rewrite !insert_insert_eq. f_equal. by apply insert_insert_ne. }
  split; [simpl; by rewrite <- app_assoc|]. split; [simpl; by rewrite <- app_assoc|].
  split.
  - destruct (balanceDiffers st a); [by left|by right].
  - destruct (balanceDiffers st b); [by left|by right].
Qed.

Lemma processAccountUpdate_commutes_witness :
  ∃ wab wba,
    processAll (exampleMonitor ["W2"] []) [exampleAccount "M1" 100; exampleAccount "M2" 5]
      (worldWith ∅) = Some (tt, wab) ∧
    processAll (exampleMonitor ["W2"] []) [exampleAccount "M2" 5; exampleAccount "M1" 100]
      (worldWith ∅) = Some (tt, wba) ∧
    heap wab = heap wba.
Proof.
  destruct (processAccountUpdate_commutes (exampleMonitor ["W2"] [])
              (exampleAccount "M1" 100) (exampleAccount "M2" 5) (worldWith ∅) ∅)
    as (wab & wba & _ & _ & Hab & Hba & Hheap & _).
  - reflexivity.
  - discriminate.
  - by exists wab, wba.
Defined.
